(** * The experimental resource cache of the concurrent-mode demo

    A shallow embedding of [src/experimental-simple-cache/cache.ts]
    ([createResource], its private [accessData], and the [read] and
    [preload] operations of the handle it returns) together with its
    callers: [preloadImage] and [loadImage] of
    [src/components/SuspenseImage.tsx], and [makeDataResource] and the
    comment kick-off of [Posts] in the application.

    The code relies on three pieces of the JavaScript host, which are
    modelled explicitly:
    - a [Map] with string keys (the module-wide [resourceCache]), as a
      [gmap string loc];
    - object identity: the object literal built in [accessData] is stored
      in the map by reference and captured by the two continuations, so
      objects live in a store and the map holds their locations;
    - promises: a promise is pending or settled, settles at most once, and
      runs the reactions registered with [then] later, from the microtask
      queue, never inside the call that registered or settled them. *)

From stdpp Require Import base gmap list strings pretty.

Open Scope string_scope.
Open Scope list_scope.

(** ** JavaScript values *)

Abbreviation loc := nat.   (* identity of a resource object literal *)
Abbreviation pid := nat.   (* identity of a promise object *)

(** A safe integer: an integer every one of whose neighbours is a
    different Number, so that its decimal digits are what the host prints
    for it. *)
Definition safe_integer (z : Z) : bool :=
  (Z.leb (-9007199254740991) z && Z.leb z 9007199254740991)%bool.

Record int53 := Int53 {
  int53_val : Z;
  int53_safe : Is_true (safe_integer int53_val)
}.

Definition int53_of_Z (z : Z) : option int53 :=
  match safe_integer z as b return (Is_true b → int53) → option int53 with
  | true => λ mk, Some (mk I)
  | false => λ _, None
  end (Int53 z).

Declare Scope int53_scope.
Delimit Scope int53_scope with int53.
Bind Scope int53_scope with int53.
Number Notation int53 int53_of_Z int53_val : int53_scope.

Global Instance int53_eq_dec : EqDecision int53.
Proof.
  intros [z1 p1] [z2 p2]. destruct (decide (z1 = z2)) as [->|Hne].
  - left. f_equal. apply proof_irrel.
  - right. intros [= ?]. done.
Defined.

(** The values the cache sees: it stores, returns and throws them and
    turns the input into a string.  They are the values that have a
    stable string form, as the cache asks of its inputs.  Numbers are the
    safe integers, [NaN] and the two infinities (the text of any other
    number is the host's shortest round-trip printing of a float, which
    is not modelled).  [JRef] is a plain object, which inherits
    [Object.prototype.toString]; [JObj] is an object with a string
    conversion of its own (an array, a [Date], an object that defines
    [toString]), given with the string that conversion returns.  Values
    whose conversion throws (a [Symbol]) are not inputs of the cache. *)
Inductive jsval :=
  | JUndefined
  | JNull
  | JBool (b : bool)
  | JNum (z : int53)
  | JNaN
  | JInfinity (negative : bool)
  | JStr (s : string)
  | JPromise (p : pid)
  | JRef (n : nat)
  | JObj (n : nat) (text : string).

Global Instance jsval_eq_dec : EqDecision jsval.
Proof. solve_decision. Defined.

(** String conversion as performed by a template literal. *)
Definition toString (v : jsval) : string :=
  match v with
  | JUndefined => "undefined"
  | JNull => "null"
  | JBool true => "true"
  | JBool false => "false"
  | JNum z => pretty (int53_val z)
  | JNaN => "NaN"
  | JInfinity false => "Infinity"
  | JInfinity true => "-Infinity"
  | JStr s => s
  | JPromise _ => "[object Promise]"
  | JRef _ => "[object Object]"
  | JObj _ text => text
  end.

(** How a call ends: [return v], or [throw v].  [ThrowTypeError] is the
    host's exception for reading a property of [undefined]. *)
Inductive completion :=
  | Return (v : jsval)
  | Throw (v : jsval)
  | ThrowTypeError.

(** ** Promises *)

Inductive outcome :=
  | Fulfilled (v : jsval)
  | Rejected (e : jsval).

(** A promise: [None] while pending, and the resource objects captured by
    the continuation pairs registered on it and not yet scheduled. *)
Record promise_obj := PromiseObj {
  p_state : option outcome;
  p_reactions : list loc
}.

(** ** The cache *)

(** The object literal of [accessData]. *)
Record resource := Resource {
  promise : pid;
  status : string;
  value : jsval
}.

(** What [createResource] closes over.  [fetch] is the identity of the
    loader function; what a loader computes is the environment's business
    and enters through its promise being settled. *)
Record handle := Handle {
  fetchKey : string;
  fetch : nat
}.

Global Instance handle_eq_dec : EqDecision handle.
Proof. solve_decision. Defined.

(** One invocation [fetch(input)], as recorded by the model: which closure
    made it, with which argument, and the promise it returned. *)
Record call := Call {
  c_handle : handle;
  c_input : jsval;
  c_promise : pid
}.

(** The state of the page: the module-wide [resourceCache], the store of
    resource objects, the promises created by loaders, the microtask
    queue of continuations ready to run, and the log of loader calls. *)
Record world := World {
  resourceCache : gmap string loc;
  objects : list resource;
  promises : list promise_obj;
  microtasks : list (loc * outcome);
  calls : list call
}.

Definition initial : world := World ∅ [] [] [] [].

(** [fetch(input)]: every loader of the repository is an [async] function
    or a [new Promise(...)], so the call returns a new promise; it is
    created pending and the environment settles it afterwards. *)
Definition invoke_loader (h : handle) (input : jsval) (w : world) : pid * world :=
  let p := length (promises w) in
  (p, World (resourceCache w) (objects w)
            (promises w ++ [PromiseObj None []])
            (microtasks w)
            (calls w ++ [Call h input p])).

(** [{promise: p, status: "pending", value: null}]: a new object. *)
Definition new_resource (p : pid) (w : world) : loc * world :=
  let l := length (objects w) in
  (l, World (resourceCache w) (objects w ++ [Resource p "pending" JNull])
            (promises w) (microtasks w) (calls w)).

(** [p.then(onFulfilled, onRejected)] where both continuations capture the
    resource object [l]: registered while [p] is pending, scheduled at
    once when [p] is already settled. *)
Definition promise_then (p : pid) (l : loc) (w : world) : world :=
  match promises w !! p with
  | Some (PromiseObj None rs) =>
      World (resourceCache w) (objects w)
            (<[p := PromiseObj None (rs ++ [l])]> (promises w))
            (microtasks w) (calls w)
  | Some (PromiseObj (Some o) _) =>
      World (resourceCache w) (objects w) (promises w)
            (microtasks w ++ [(l, o)]) (calls w)
  | None => w
  end.

(** [resourceCache.set(key, resource)]. *)
Definition cache_set (key : string) (l : loc) (w : world) : world :=
  World (<[key := l]> (resourceCache w)) (objects w) (promises w)
        (microtasks w) (calls w).

Definition accessData (h : handle) (key : string) (input : jsval) (w : world) : world :=
  match resourceCache w !! key with
  | Some _ => w
  | None =>
      let '(p, w1) := invoke_loader h input w in
      let '(l, w2) := new_resource p w1 in
      let w3 := promise_then p l w2 in
      cache_set key l w3
  end.

(** The template literal [`${fetchKey}:${input}`]. *)
Definition make_key (h : handle) (input : jsval) : string :=
  fetchKey h +:+ ":" +:+ toString input.

(** The arms of the [switch] in [read]. *)
Inductive arm := CasePending | CaseResolved | CaseRejected | CaseDefault.

Definition switch_status (s : string) : arm :=
  if decide (s = "pending") then CasePending
  else if decide (s = "resolved") then CaseResolved
  else if decide (s = "rejected") then CaseRejected
  else CaseDefault.

Definition run_arm (a : arm) (result : resource) : completion :=
  match a with
  | CasePending => Throw (JPromise (promise result))
  | CaseResolved => Return (value result)
  | CaseRejected => Throw (value result)
  | CaseDefault => Return JUndefined
  end.

(** [resourceCache.get(key)], dereferenced. *)
Definition cache_get (key : string) (w : world) : option resource :=
  l ← resourceCache w !! key; objects w !! l.

Definition read (h : handle) (input : jsval) (w : world) : completion * world :=
  let key := make_key h input in
  let w' := accessData h key input w in
  match cache_get key w' with
  | Some result => (run_arm (switch_status (status result)) result, w')
  | None => (ThrowTypeError, w')
  end.

Definition preload (h : handle) (input : jsval) (w : world) : completion * world :=
  let key := make_key h input in
  (Return JUndefined, accessData h key input w).

Definition createResource (fetchKey : string) (fetch : nat) : handle :=
  Handle fetchKey fetch.

(** ** Continuations and the host *)

(** [value => { resource.status = "resolved"; resource.value = value }] *)
Definition on_fulfilled (v : jsval) (r : resource) : resource :=
  Resource (promise r) "resolved" v.

(** [error => { resource.status = "error"; resource.value = error }] *)
Definition on_rejected (e : jsval) (r : resource) : resource :=
  Resource (promise r) "error" e.

Definition react (o : outcome) : resource → resource :=
  match o with
  | Fulfilled v => on_fulfilled v
  | Rejected e => on_rejected e
  end.

(** The host settles promise [p]: only a pending promise changes, and its
    registered continuations move to the microtask queue. *)
Definition settle (p : pid) (o : outcome) (w : world) : world :=
  match promises w !! p with
  | Some (PromiseObj None rs) =>
      World (resourceCache w) (objects w)
            (<[p := PromiseObj (Some o) []]> (promises w))
            (microtasks w ++ ((λ l, (l, o)) <$> rs)) (calls w)
  | _ => w
  end.

(** The host runs the first job of the microtask queue. *)
Definition run_microtask (w : world) : world :=
  match microtasks w with
  | [] => w
  | (l, o) :: rest =>
      World (resourceCache w) (alter (react o) l (objects w)) (promises w)
            rest (calls w)
  end.

(** Everything that can happen to the cache. *)
Inductive event :=
  | EvRead (h : handle) (input : jsval)
  | EvPreload (h : handle) (input : jsval)
  | EvSettle (p : pid) (o : outcome)
  | EvMicrotask.

Definition step (w : world) (ev : event) : world :=
  match ev with
  | EvRead h input => (read h input w).2
  | EvPreload h input => (preload h input w).2
  | EvSettle p o => settle p o w
  | EvMicrotask => run_microtask w
  end.

Definition run (evs : list event) (w : world) : world := foldl step w evs.

(** A world is reachable when the page can be in it. *)
Definition reachable (w : world) : Prop := ∃ evs, w = run evs initial.

(** ** src/components/SuspenseImage.tsx *)

(** Every call builds a new arrow function, whose identity is [fn]. *)
Definition preloadImage (fn : nat) (src : string) : handle :=
  createResource src fn.

(** [preloadImage(src).read()] as a statement: a thrown value propagates,
    a returned one is dropped. *)
Definition loadImage (fn : nat) (src : string) (w : world) : completion * world :=
  match read (preloadImage fn src) JUndefined w with
  | (Return _, w') => (Return JUndefined, w')
  | thrown => thrown
  end.

(** ** Accounting over the model *)

(** The key on whose behalf a recorded loader call was made. *)
Definition call_key (c : call) : string := make_key (c_handle c) (c_input c).

(** The loader calls made for key [k]. *)
Definition calls_for (k : string) (w : world) : list call :=
  filter (λ c, call_key c = k) (calls w).

(** The key an event asks the cache for, if it is a request. *)
Definition request_key (ev : event) : option string :=
  match ev with
  | EvRead h input | EvPreload h input => Some (make_key h input)
  | _ => None
  end.





(** The continuations still owed: registered on a promise or queued. *)
Definition waiting (w : world) : list loc :=
  concat (p_reactions <$> promises w) ++ (microtasks w).*1.

(** The states of the specification's data model, read off the [status]
    field as the continuations write it. *)
Inductive entry_state := Pending | Resolved | Failed | Other.

Definition state_of (r : resource) : entry_state :=
  if decide (status r = "pending") then Pending
  else if decide (status r = "resolved") then Resolved
  else if decide (status r = "error") then Failed
  else Other.

(** The transitions the specification allows, staying put included. *)
Definition transition (s s' : entry_state) : bool :=
  match s, s' with
  | Pending, (Pending | Resolved | Failed) => true
  | Resolved, Resolved => true
  | Failed, Failed => true
  | _, _ => false
  end.

(** What holds of every world the page can be in. *)
Record wf (w : world) : Prop := Wf {
  wf_nodup : NoDup (waiting w);
  wf_waiting : ∀ l, l ∈ waiting w →
    ∃ r, objects w !! l = Some r ∧ status r = "pending";
  wf_status : ∀ l r, objects w !! l = Some r →
    status r = "pending" ∨ status r = "resolved" ∨ status r = "error";
  wf_absent : ∀ k, resourceCache w !! k = None → calls_for k w = [];
  wf_present : ∀ k l, resourceCache w !! k = Some l →
    ∃ r c, objects w !! l = Some r ∧ calls_for k w = [c] ∧
           c_promise c = promise r
}.

(** An object keeps its promise, and its [status] and [value] change at
    most once, out of ["pending"]. *)
Definition evolves (r r' : resource) : Prop :=
  r' = r ∨
  (promise r' = promise r ∧ status r = "pending" ∧
   (status r' = "resolved" ∨ status r' = "error")).

(** The arm of the [switch] that [read] takes. *)
Definition read_arm (h : handle) (input : jsval) (w : world) : option arm :=
  let key := make_key h input in
  r ← cache_get key (accessData h key input w);
  Some (switch_status (status r)).

(** ** Scenarios of the specification *)

Definition comments : handle := createResource "comments" 1.
Definition posts1 : handle := createResource "posts:1" 2.

(** [read(42)] on the comments resource, whose load then fails. *)
Definition failed_load : list event :=
  [EvRead comments (JNum 42);
   EvSettle 0 (Rejected (JStr "network error"));
   EvMicrotask].

(** [read("")] on the posts resource, whose load then succeeds. *)
Definition finished_load : list event :=
  [EvRead posts1 (JStr "");
   EvSettle 0 (Fulfilled (JRef 0));
   EvMicrotask].

(** ** The callers in the application *)


Module Data.
(** The identities of the four arrow functions one call of
    [makeDataResource] creates. *)
Record loaders := Loaders {
  posts_fn : nat;
  user_fn : nat;
  friends_fn : nat;
  comments_fn : nat
}.

(** The object literal [resources]. *)
Record resources := Resources {
  posts : handle;
  user : handle;
  friends : handle;
  comments : handle
}.
End Data.

Definition makeDataResource (fns : Data.loaders) (userId : jsval) : Data.resources :=
  Data.Resources
    (createResource ("posts:" +:+ toString userId) (Data.posts_fn fns))
    (createResource ("user:" +:+ toString userId) (Data.user_fn fns))
    (createResource "friends" (Data.friends_fn fns))
    (createResource "comments" (Data.comments_fn fns)).


(** The kick-off of [Posts]: [posts] is what [read().slice(0, 10)] kept,
    and [posts.forEach(async post => resource.comments.preload(post.id))]
    preloads the comments of each, in order; [ids] are the [id]s of the
    posts that were read. *)
Definition kick_off_comments (res : Data.resources) (ids : list jsval)
    (w : world) : world :=
  foldl (λ w id, (preload (Data.comments res) id w).2) w (take 10 ids).

(** ** More accounting *)

(** The host runs every job that is in the microtask queue. *)
Definition drain (w : world) : world :=
  run (replicate (length (microtasks w)) EvMicrotask) w.

(** An entry carries what the promise was settled with. *)
Definition settled_as (o : outcome) (r : resource) : Prop :=
  match o with
  | Fulfilled v => status r = "resolved" ∧ value r = v
  | Rejected e => status r = "error" ∧ value r = e
  end.

(** How objects, promises and queued continuations hang together. *)
Record linked (w : world) : Prop := Linked {
  linked_object : ∀ l r, objects w !! l = Some r →
    ∃ pr, promises w !! promise r = Some pr ∧
      match p_state pr with
      | None => status r = "pending" ∧ l ∈ p_reactions pr
      | Some o => (status r = "pending" ∧ (l, o) ∈ microtasks w) ∨ settled_as o r
      end;
  linked_reaction : ∀ p pr l, promises w !! p = Some pr → l ∈ p_reactions pr →
    ∃ r, objects w !! l = Some r ∧ promise r = p;
  linked_task : ∀ l o, (l, o) ∈ microtasks w →
    ∃ r pr, objects w !! l = Some r ∧ promises w !! promise r = Some pr ∧
            p_state pr = Some o
}.

(** One object, one promise and one loader call per cached key. *)
Record tally (w : world) : Prop := Tally {
  tally_size : size (resourceCache w) = length (objects w);
  tally_promises : length (promises w) = length (objects w);
  tally_calls : length (calls w) = length (objects w);
  tally_bound : ∀ k l, resourceCache w !! k = Some l → l < length (objects w);
  tally_inj : ∀ k1 k2 l,
    resourceCache w !! k1 = Some l → resourceCache w !! k2 = Some l → k1 = k2;
  tally_promise : ∀ l r, objects w !! l = Some r → promise r = l
}.

(** The keys a trace asks for. *)
Definition requested (evs : list event) : gset string :=
  list_to_set (omap request_key evs).

(** ** Traces *)

Lemma run_cons ev evs w : run (ev :: evs) w = run evs (step w ev).
Proof. done. Qed.

Lemma run_snoc evs ev w : run (evs ++ [ev]) w = step (run evs w) ev.
Proof. unfold run. by rewrite foldl_snoc. Qed.

(** ** The two paths of [accessData] *)

Lemma accessData_hit h key input w l :
  resourceCache w !! key = Some l → accessData h key input w = w.
Proof. intros H. unfold accessData. by rewrite H. Qed.

Lemma accessData_miss h key input w :
  resourceCache w !! key = None →
  accessData h key input w =
    World (<[key := length (objects w)]> (resourceCache w))
          (objects w ++ [Resource (length (promises w)) "pending" JNull])
          (promises w ++ [PromiseObj None [length (objects w)]])
          (microtasks w)
          (calls w ++ [Call h input (length (promises w))]).
Proof.
  intros H. unfold accessData. rewrite H. cbn.
  unfold promise_then, cache_set. cbn.
  rewrite list_lookup_middle by done. cbn.
  rewrite insert_app_r_alt by done. by rewrite Nat.sub_diag.
Qed.

Lemma accessData_cache_mono h key input w k l :
  resourceCache w !! k = Some l →
  resourceCache (accessData h key input w) !! k = Some l.
Proof.
  intros Hk. destruct (resourceCache w !! key) as [l'|] eqn:E.
  - by rewrite (accessData_hit _ _ _ _ l').
  - rewrite accessData_miss by done. cbn.
    rewrite lookup_insert_ne; [done | congruence].
Qed.

Lemma accessData_cache_is_Some h key input w :
  is_Some (resourceCache (accessData h key input w) !! key).
Proof.
  destruct (resourceCache w !! key) as [l'|] eqn:E.
  - rewrite (accessData_hit _ _ _ _ l') by done. eauto.
  - rewrite accessData_miss by done. cbn. rewrite lookup_insert_eq. eauto.
Qed.

Lemma accessData_cache_other h key input w k :
  k ≠ key →
  resourceCache (accessData h key input w) !! k = resourceCache w !! k.
Proof.
  intros Hne. destruct (resourceCache w !! key) as [l'|] eqn:E.
  - by rewrite (accessData_hit _ _ _ _ l').
  - rewrite accessData_miss by done. cbn. by rewrite lookup_insert_ne.
Qed.

(** ** The invariant is kept *)

Lemma wf_initial : wf initial.
Proof.
  split; cbn.
  - constructor.
  - intros l Hl. by apply elem_of_nil in Hl.
  - intros l r Hl. by rewrite lookup_nil in Hl.
  - done.
  - intros k l Hk. by rewrite lookup_empty in Hk.
Qed.

Lemma waiting_lt w l : wf w → l ∈ waiting w → l < length (objects w).
Proof.
  intros Hw Hl. destruct (wf_waiting _ Hw l Hl) as (r & Hr & _).
  by eapply lookup_lt_Some.
Qed.

Lemma calls_for_snoc k w' w c :
  calls w' = calls w ++ [c] →
  calls_for k w' = calls_for k w ++ (if decide (call_key c = k) then [c] else []).
Proof.
  intros E. unfold calls_for. rewrite E, filter_app.
  by f_equal.
Qed.

Lemma wf_accessData h input w :
  wf w → wf (accessData h (make_key h input) input w).
Proof.
  intros Hw. set (key := make_key h input).
  destruct (resourceCache w !! key) as [l0|] eqn:E.
  { by rewrite (accessData_hit _ _ _ _ l0). }
  rewrite accessData_miss by done.
  set (l := length (objects w)). set (p := length (promises w)).
  assert (Hfresh : l ∉ waiting w).
  { intros Hin. apply (waiting_lt _ _ Hw) in Hin. unfold l in Hin. lia. }
  assert (Hperm : waiting (World (<[key:=l]> (resourceCache w))
      (objects w ++ [Resource p "pending" JNull])
      (promises w ++ [PromiseObj None [l]]) (microtasks w)
      (calls w ++ [Call h input p])) ≡ₚ l :: waiting w).
  { unfold waiting; cbn. rewrite fmap_app, concat_app. cbn.
    rewrite <- (assoc_L (++)). cbn. by rewrite <- Permutation_middle. }
  split.
  - rewrite Hperm. apply NoDup_cons. split; [done | apply Hw].
  - intros l' Hl'. rewrite Hperm in Hl'. cbn.
    apply elem_of_cons in Hl' as [-> | Hl'].
    + exists (Resource p "pending" JNull). split; [|done].
      by apply list_lookup_middle.
    + destruct (wf_waiting _ Hw l' Hl') as (r & Hr & Hs).
      exists r. split; [|done]. by apply lookup_app_l_Some.
  - cbn. intros l' r Hr. apply lookup_snoc_Some in Hr as [[_ Hr] | [_ <-]].
    + by eapply wf_status.
    + by left.
  - intros k Hk. cbn in Hk.
    apply lookup_insert_None in Hk as [Hk Hne].
    rewrite (calls_for_snoc k _ w (Call h input p)) by done.
    rewrite (wf_absent _ Hw k Hk). cbn.
    rewrite decide_False; [done|]. unfold call_key; cbn. by fold key.
  - intros k l' Hk. cbn in Hk.
    rewrite (calls_for_snoc k _ w (Call h input p)) by done.
    apply lookup_insert_Some in Hk as [[<- <-] | [Hne Hk]].
    + exists (Resource p "pending" JNull), (Call h input p).
      split; [by apply list_lookup_middle|].
      rewrite (wf_absent _ Hw key E). by rewrite decide_True.
    + destruct (wf_present _ Hw k l' Hk) as (r & c & Hr & Hc & Hp).
      exists r, c. split; [by apply lookup_app_l_Some|].
      rewrite Hc. rewrite decide_False; [done|].
      unfold call_key; cbn. by fold key.
Qed.

(** Settling a promise hands its continuations over to the queue: none is
    lost and none is duplicated. *)
Lemma reactions_handed_over (ps : list promise_obj) p pr s :
  ps !! p = Some pr →
  concat (p_reactions <$> ps) ≡ₚ
    concat (p_reactions <$> <[p := PromiseObj s []]> ps) ++ p_reactions pr.
Proof.
  revert p. induction ps as [|q ps IH]; intros [|p] Hp; try done.
  - cbn in *. injection Hp as ->. apply Permutation_app_comm.
  - cbn in *. rewrite (IH p Hp). by rewrite (assoc_L (++)).
Qed.

Lemma wf_settle p o w : wf w → wf (settle p o w).
Proof.
  intros Hw. unfold settle.
  destruct (promises w !! p) as [[[o'|] rs]|] eqn:E; try done.
  assert (Hperm : waiting (World (resourceCache w) (objects w)
      (<[p:=PromiseObj (Some o) []]> (promises w))
      (microtasks w ++ ((λ l, (l, o)) <$> rs)) (calls w)) ≡ₚ waiting w).
  { unfold waiting; cbn.
    rewrite (reactions_handed_over (promises w) p _ (Some o) E). cbn.
    rewrite fmap_app, <- list_fmap_compose.
    change (fst ∘ (λ l : loc, (l, o))) with (@id loc). rewrite list_fmap_id.
    rewrite <- !(assoc_L (++)). apply Permutation_app_head, Permutation_app_comm. }
  split; cbn.
  - rewrite Hperm. apply Hw.
  - intros l Hl. rewrite Hperm in Hl. by apply wf_waiting.
  - apply Hw.
  - apply Hw.
  - apply Hw.
Qed.

Lemma wf_run_microtask w : wf w → wf (run_microtask w).
Proof.
  intros Hw. unfold run_microtask.
  destruct (microtasks w) as [|[l o] rest] eqn:E; [done|].
  assert (Hperm : waiting w ≡ₚ
    l :: concat (p_reactions <$> promises w) ++ rest.*1).
  { unfold waiting. rewrite E. cbn. by rewrite <- Permutation_middle. }
  pose proof (wf_nodup _ Hw) as Hnd. rewrite Hperm in Hnd.
  apply NoDup_cons in Hnd as [Hl Hnd].
  assert (Hkeep : ∀ l', l' ∈ concat (p_reactions <$> promises w) ++ rest.*1 →
    l' ≠ l ∧ l' ∈ waiting w).
  { intros l' Hl'. split; [congruence|]. rewrite Hperm. by right. }
  split; cbn.
  - done.
  - intros l' Hl'. destruct (Hkeep l' Hl') as [Hne Hin].
    rewrite list_lookup_alter_ne by done. by apply wf_waiting.
  - intros l' r. destruct (decide (l = l')) as [<-|Hne].
    + rewrite list_lookup_alter_eq. intros Hr.
      apply fmap_Some in Hr as (r0 & _ & ->).
      destruct o; cbn; auto.
    + rewrite list_lookup_alter_ne by done. apply Hw.
  - apply Hw.
  - intros k l' Hk.
    destruct (wf_present _ Hw k l' Hk) as (r & c & Hr & Hc & Hp).
    destruct (decide (l = l')) as [<-|Hne].
    + exists (react o r), c. rewrite list_lookup_alter_eq, Hr.
      split; [done|]. split; [done|]. by destruct o.
    + exists r, c. by rewrite list_lookup_alter_ne.
Qed.

Lemma wf_step w ev : wf w → wf (step w ev).
Proof.
  intros Hw. destruct ev; cbn.
  - unfold read. destruct (cache_get _ _); by apply wf_accessData.
  - by apply wf_accessData.
  - by apply wf_settle.
  - by apply wf_run_microtask.
Qed.

Lemma wf_run evs w : wf w → wf (run evs w).
Proof.
  revert w. induction evs as [|ev evs IH]; intros w Hw; [done|].
  cbn. by apply IH, wf_step.
Qed.

Lemma reachable_wf w : reachable w → wf w.
Proof. intros [evs ->]. apply wf_run, wf_initial. Qed.


(** ** How the cache map and the objects change over time *)

(** The two events of the host: case analysis on the promise that is
    settled, or on the microtask queue. *)
Ltac host_cases w :=
  unfold settle, run_microtask;
  first [ destruct (promises w !! _) as [[[?|] ?]|]
        | destruct (microtasks w) as [|[??] ?] ].

Lemma step_cache_mono w ev k l :
  resourceCache w !! k = Some l → resourceCache (step w ev) !! k = Some l.
Proof.
  intros Hk. destruct ev; cbn.
  - unfold read. destruct (cache_get _ _); by apply accessData_cache_mono.
  - by apply accessData_cache_mono.
  - by host_cases w.
  - by host_cases w.
Qed.

Lemma run_cache_mono evs w k l :
  resourceCache w !! k = Some l → resourceCache (run evs w) !! k = Some l.
Proof.
  revert w. induction evs as [|ev evs IH]; intros w Hk; [done|].
  cbn. by apply IH, step_cache_mono.
Qed.

Lemma step_cache_dom w ev k :
  is_Some (resourceCache (step w ev) !! k) ↔
  is_Some (resourceCache w !! k) ∨ request_key ev = Some k.
Proof.
  assert (Hacc : ∀ h input,
    is_Some (resourceCache (accessData h (make_key h input) input w) !! k) ↔
    is_Some (resourceCache w !! k) ∨ Some (make_key h input) = Some k).
  { intros h input. destruct (decide (k = make_key h input)) as [->|Hne].
    - split; [by right | intros _; apply accessData_cache_is_Some].
    - rewrite accessData_cache_other by done. split; [by left|].
      intros [H|H]; [done | congruence]. }
  assert (Hid : is_Some (resourceCache w !! k) ↔
    is_Some (resourceCache w !! k) ∨ None = Some k).
  { split; [by left | by intros [?|?]]. }
  destruct ev; cbn.
  - unfold read. destruct (cache_get _ _); apply Hacc.
  - apply Hacc.
  - host_cases w; cbn; apply Hid.
  - host_cases w; cbn; apply Hid.
Qed.

(** Loader calls for a key that is already cached: there are no more. *)
Lemma step_calls_for_hit w ev k l :
  resourceCache w !! k = Some l → calls_for k (step w ev) = calls_for k w.
Proof.
  intros Hk.
  assert (Hacc : ∀ h input,
    calls_for k (accessData h (make_key h input) input w) = calls_for k w).
  { intros h input.
    destruct (resourceCache w !! make_key h input) as [l'|] eqn:E.
    - by rewrite (accessData_hit _ _ _ _ l').
    - rewrite accessData_miss by done.
      rewrite (calls_for_snoc k _ w (Call h input (length (promises w)))) by done.
      rewrite decide_False, app_nil_r; [done|].
      unfold call_key; cbn. congruence. }
  destruct ev; cbn.
  - unfold read. destruct (cache_get _ _); apply Hacc.
  - apply Hacc.
  - by host_cases w.
  - by host_cases w.
Qed.

Lemma run_calls_for_hit evs w k l :
  resourceCache w !! k = Some l → calls_for k (run evs w) = calls_for k w.
Proof.
  revert w. induction evs as [|ev evs IH]; intros w Hk; [done|].
  rewrite run_cons, (IH (step w ev)) by by apply step_cache_mono.
  by eapply step_calls_for_hit.
Qed.

Lemma evolves_trans r1 r2 r3 : evolves r1 r2 → evolves r2 r3 → evolves r1 r3.
Proof.
  intros [->|(Hp & Hs & Ht)] [->|(Hp' & Hs' & Ht')].
  - by left.
  - right; eauto.
  - right; eauto.
  - rewrite Hs' in Ht. by destruct Ht.
Qed.

Lemma accessData_objects h key input w l r :
  objects w !! l = Some r → objects (accessData h key input w) !! l = Some r.
Proof.
  intros Hr. destruct (resourceCache w !! key) as [l'|] eqn:E.
  - by rewrite (accessData_hit _ _ _ _ l').
  - rewrite accessData_miss by done. cbn. by apply lookup_app_l_Some.
Qed.

Lemma step_object w ev l r :
  wf w → objects w !! l = Some r →
  ∃ r', objects (step w ev) !! l = Some r' ∧ evolves r r'.
Proof.
  intros Hw Hr. destruct ev; cbn.
  - exists r. split; [|by left].
    unfold read. destruct (cache_get _ _); by apply accessData_objects.
  - exists r. split; [|by left]. by apply accessData_objects.
  - exists r. split; [|by left].
    unfold settle. by destruct (promises w !! p) as [[[?|] ?]|].
  - unfold run_microtask.
    destruct (microtasks w) as [|[l0 o] rest] eqn:E; [by exists r; split; [|left]|].
    cbn. destruct (decide (l0 = l)) as [->|Hne].
    + exists (react o r). rewrite list_lookup_alter_eq, Hr. split; [done|].
      destruct (wf_waiting _ Hw l) as (r0 & Hr0 & Hs).
      { unfold waiting. rewrite E. cbn. apply elem_of_app. right. by left. }
      assert (r0 = r) as -> by congruence.
      right. destruct o; cbn; auto.
    + exists r. rewrite list_lookup_alter_ne by done. split; [done | by left].
Qed.

Lemma run_object evs w l r :
  wf w → objects w !! l = Some r →
  ∃ r', objects (run evs w) !! l = Some r' ∧ evolves r r'.
Proof.
  revert w r. induction evs as [|ev evs IH]; intros w r Hw Hr.
  - exists r. split; [done | by left].
  - destruct (step_object w ev l r Hw Hr) as (r1 & Hr1 & He1).
    destruct (IH (step w ev) r1 (wf_step _ _ Hw) Hr1) as (r2 & Hr2 & He2).
    exists r2. split; [done | by eapply evolves_trans].
Qed.

(** The same for the entry under a key. *)
Lemma run_entry evs w k r :
  wf w → cache_get k w = Some r →
  ∃ r', cache_get k (run evs w) = Some r' ∧ evolves r r'.
Proof.
  intros Hw Hk. unfold cache_get in *.
  destruct (resourceCache w !! k) as [l|] eqn:E; [|done]. cbn in Hk.
  rewrite (run_cache_mono evs w k l E). cbn. by apply run_object.
Qed.

(** [read] when the key is cached. *)
Lemma read_hit h input w r :
  cache_get (make_key h input) w = Some r →
  read h input w = (run_arm (switch_status (status r)) r, w).
Proof.
  intros Hk. unfold read.
  assert (accessData h (make_key h input) input w = w) as ->.
  { unfold cache_get in Hk.
    destruct (resourceCache w !! make_key h input) as [l|] eqn:E; [|done].
    by eapply accessData_hit. }
  by rewrite Hk.
Qed.

Lemma cache_get_object k w r :
  cache_get k w = Some r →
  ∃ l, resourceCache w !! k = Some l ∧ objects w !! l = Some r.
Proof.
  unfold cache_get. destruct (resourceCache w !! k) as [l|]; [|done].
  cbn. eauto.
Qed.

Lemma state_of_pending r : status r = "pending" → state_of r = Pending.
Proof. intros H. unfold state_of. by rewrite H. Qed.

Lemma state_of_resolved r : status r = "resolved" → state_of r = Resolved.
Proof. intros H. unfold state_of. by rewrite H. Qed.

Lemma state_of_error r : status r = "error" → state_of r = Failed.
Proof. intros H. unfold state_of. by rewrite H. Qed.

(** ** The model on the scenarios of the specification *)

(** The first [read("")] of the posts resource suspends on the promise of
    the load; after the load has finished a retry returns its value. *)
Example posts_scenario :
  (read posts1 (JStr "") initial).1 = Throw (JPromise 0) ∧
  (read posts1 (JStr "") (run finished_load initial)).1 = Return (JRef 0).
Proof. split; vm_compute; reflexivity. Qed.

(** A loader whose promise is settled before it is even returned: the
    continuation has still not run when [read] looks at the entry, and a
    second [read] in the same turn suspends again on the same promise. *)
Example settled_early_scenario :
  let w := run [EvRead posts1 (JStr ""); EvSettle 0 (Fulfilled (JRef 0))] initial in
  microtasks w = [(0, Fulfilled (JRef 0))] ∧
  (read posts1 (JStr "") w).1 = Throw (JPromise 0) ∧
  (read posts1 (JStr "") (run_microtask w)).1 = Return (JRef 0).
Proof. repeat split; vm_compute; reflexivity. Qed.

(** A promise settles once: a second settlement changes nothing. *)
Example settle_twice_scenario :
  let w := run finished_load initial in
  settle 0 (Rejected (JStr "late")) w = w.
Proof. vm_compute. reflexivity. Qed.

(** [loadImage] twice for one [src]: two closures, one load. *)
Lemma loadImage_world fn src w :
  (loadImage fn src w).2 =
  accessData (preloadImage fn src) (make_key (preloadImage fn src) JUndefined)
             JUndefined w.
Proof.
  unfold loadImage, read.
  destruct (cache_get _ _) as [r|]; [|done].
  by destruct (run_arm _ _).
Qed.

Lemma loadImage_twice fn1 fn2 src w :
  let w1 := (loadImage fn1 src w).2 in
  (loadImage fn2 src w1).2 = w1.
Proof.
  cbv zeta. rewrite !loadImage_world.
  destruct (accessData_cache_is_Some (preloadImage fn1 src)
              (make_key (preloadImage fn1 src) JUndefined) JUndefined w) as [l Hl].
  by apply (accessData_hit _ _ _ _ l).
Qed.

(** ** The claims *)

(** C3. Between any two moments of a run, the state of the entry under a
    key either stays what it was or has gone from Pending to Resolved or
    from Pending to Failed (the state the rejection continuation writes);
    a terminal entry is the same object with the same fields ever after,
    so it is never pending again and never takes the other transition. *)
Theorem entry_state_monotone w evs k r :
  reachable w → cache_get k w = Some r →
  ∃ r', cache_get k (run evs w) = Some r' ∧
        state_of r ≠ Other ∧
        transition (state_of r) (state_of r') = true ∧
        (state_of r ≠ Pending → r' = r).
Proof.
  intros Hw%reachable_wf Hk.
  destruct (run_entry evs w k r Hw Hk) as (r' & Hk' & He).
  exists r'. split; [done|].
  apply cache_get_object in Hk as (l & _ & Hr).
  pose proof (wf_status _ Hw l r Hr) as Hs.
  destruct He as [->|(_ & Hp & Ht)].
  - destruct Hs as [Hs|[Hs|Hs]].
    + rewrite (state_of_pending _ Hs). done.
    + rewrite (state_of_resolved _ Hs). done.
    + rewrite (state_of_error _ Hs). done.
  - rewrite (state_of_pending _ Hp).
    destruct Ht as [Ht|Ht].
    + rewrite (state_of_resolved _ Ht). done.
    + rewrite (state_of_error _ Ht). done.
Qed.

Lemma entry_state_monotone_witness :
  ∃ r', cache_get "comments:42" (run [EvRead comments (JNum 42)] (run failed_load initial)) = Some r' ∧
        state_of (Resource 0 "error" (JStr "network error")) ≠ Other ∧
        transition (state_of (Resource 0 "error" (JStr "network error"))) (state_of r') = true ∧
        (state_of (Resource 0 "error" (JStr "network error")) ≠ Pending →
         r' = Resource 0 "error" (JStr "network error")).
Proof.
  apply (entry_state_monotone (run failed_load initial)).
  - by exists failed_load.
  - vm_compute. reflexivity.
Defined.

(** C5. Once the entry under a key is resolved with value [v], [read] for
    that key returns [v] at any later moment and leaves the whole world
    as it is; and nothing that happens later calls a loader for the key. *)
Theorem read_resolved_idempotent w evs h input r :
  reachable w →
  cache_get (make_key h input) w = Some r → status r = "resolved" →
  read h input (run evs w) = (Return (value r), run evs w) ∧
  calls_for (make_key h input) (run evs w) = calls_for (make_key h input) w.
Proof.
  intros Hw%reachable_wf Hk Hs. split.
  - destruct (run_entry evs w _ r Hw Hk) as (r' & Hk' & [->|(_ & Hp & _)]).
    + rewrite (read_hit _ _ _ _ Hk'). by rewrite Hs.
    + congruence.
  - apply cache_get_object in Hk as (l & Hl & _).
    by eapply run_calls_for_hit.
Qed.

Lemma read_resolved_idempotent_witness :
  let w := run finished_load initial in
  let later := [EvRead posts1 (JStr ""); EvPreload posts1 (JStr ""); EvMicrotask] in
  read posts1 (JStr "") (run later w) = (Return (JRef 0), run later w) ∧
  calls_for "posts:1:" (run later w) = calls_for "posts:1:" w.
Proof.
  apply (read_resolved_idempotent (run finished_load initial) _ posts1 (JStr "")
           (Resource 0 "resolved" (JRef 0))).
  - by exists finished_load.
  - vm_compute. reflexivity.
  - reflexivity.
Defined.

(** C1, as the code has it. Once the rejection continuation has run for
    the entry under a key, with failure value [e], [read] for that key
    calls no loader and changes nothing, but it does not raise [e]: it
    returns [undefined], at any later moment. *)
Theorem read_failed_returns_undefined w evs h input r :
  reachable w →
  cache_get (make_key h input) w = Some r → status r = "error" →
  read h input (run evs w) = (Return JUndefined, run evs w) ∧
  (read h input (run evs w)).1 ≠ Throw (value r).
Proof.
  intros Hw%reachable_wf Hk Hs.
  destruct (run_entry evs w _ r Hw Hk) as (r' & Hk' & [->|(_ & Hp & _)]).
  - rewrite (read_hit _ _ _ _ Hk'). by rewrite Hs.
  - congruence.
Qed.

Lemma read_failed_returns_undefined_witness :
  let w := run failed_load initial in
  read comments (JNum 42) (run [] w) = (Return JUndefined, run [] w) ∧
  (read comments (JNum 42) (run [] w)).1 ≠ Throw (JStr "network error").
Proof.
  apply (read_failed_returns_undefined (run failed_load initial) [] comments
           (JNum 42) (Resource 0 "error" (JStr "network error"))).
  - by exists failed_load.
  - vm_compute. reflexivity.
  - reflexivity.
Defined.

(** C9. In every world the page can be in, no object carries the status
    ["rejected"]: the rejection continuation writes ["error"]. So [read]
    never takes the [case "rejected"] arm, and on an entry whose load has
    failed it takes the [default] arm and returns [undefined]. *)
Theorem rejected_arm_unreachable w :
  reachable w →
  (∀ e r, status (on_rejected e r) = "error") ∧
  (∀ l r, objects w !! l = Some r → status r ≠ "rejected") ∧
  (∀ h input, read_arm h input w ≠ Some CaseRejected) ∧
  (∀ h input r, cache_get (make_key h input) w = Some r → status r = "error" →
     read_arm h input w = Some CaseDefault ∧
     read h input w = (Return JUndefined, w)).
Proof.
  intros Hw%reachable_wf. split; [done|].
  assert (Hno : ∀ w', wf w' → ∀ l r, objects w' !! l = Some r →
                switch_status (status r) ≠ CaseRejected ∧ status r ≠ "rejected").
  { intros w' Hw' l r Hr.
    destruct (wf_status _ Hw' l r Hr) as [Hs|[Hs|Hs]]; by rewrite Hs. }
  split; [|split].
  - intros l r Hr. by apply (Hno w Hw l r).
  - intros h input. unfold read_arm.
    destruct (cache_get _ _) as [r|] eqn:E; [|done]. cbn.
    apply cache_get_object in E as (l & _ & Hr).
    intros [= Harm]. revert Harm.
    by apply (Hno _ (wf_accessData h input w Hw) l r).
  - intros h input r Hk Hs. split.
    + unfold read_arm.
      assert (accessData h (make_key h input) input w = w) as ->.
      { apply cache_get_object in Hk as (l & Hl & _). by eapply accessData_hit. }
      rewrite Hk. cbn. by rewrite Hs.
    + rewrite (read_hit _ _ _ _ Hk). by rewrite Hs.
Qed.

Lemma rejected_arm_unreachable_witness :
  let w := run failed_load initial in
  (∀ e r, status (on_rejected e r) = "error") ∧
  (∀ l r, objects w !! l = Some r → status r ≠ "rejected") ∧
  (∀ h input, read_arm h input w ≠ Some CaseRejected) ∧
  (∀ h input r, cache_get (make_key h input) w = Some r → status r = "error" →
     read_arm h input w = Some CaseDefault ∧
     read h input w = (Return JUndefined, w)).
Proof.
  apply (rejected_arm_unreachable (run failed_load initial)).
  by exists failed_load.
Defined.








Lemma read_world h input w :
  (read h input w).2 = accessData h (make_key h input) input w.
Proof. unfold read. by destruct (cache_get _ _). Qed.

Lemma accessData_entry h input w :
  wf w →
  ∃ r, cache_get (make_key h input)
         (accessData h (make_key h input) input w) = Some r.
Proof.
  intros Hw%(wf_accessData h input).
  destruct (accessData_cache_is_Some h (make_key h input) input w) as [l Hl].
  destruct (wf_present _ Hw _ l Hl) as (r & _ & Hr & _).
  exists r. unfold cache_get. by rewrite Hl.
Qed.

(** C4. If the entry under a key is still pending some time after a
    [read] for it, then that [read] threw the promise stored in the entry,
    a [read] now throws the very same promise and changes nothing, and
    that promise is the one returned by the only loader call made for the
    key. *)
Theorem read_pending_surfaces_handle w h input evs r :
  reachable w →
  let k := make_key h input in
  let w' := run evs (read h input w).2 in
  cache_get k w' = Some r → status r = "pending" →
  (read h input w).1 = Throw (JPromise (promise r)) ∧
  read h input w' = (Throw (JPromise (promise r)), w') ∧
  ∃ c, calls_for k w' = [c] ∧ c_promise c = promise r.
Proof.
  intros Hw%reachable_wf k w'. subst k w'. rewrite read_world.
  intros Hk Hs.
  pose proof (wf_accessData h input w Hw) as Hw1.
  destruct (accessData_entry h input w Hw) as (r1 & Hr1).
  destruct (run_entry evs _ _ r1 Hw1 Hr1) as (r' & Hr' & He).
  assert (r' = r) as -> by congruence.
  assert (r1 = r) as ->.
  { destruct He as [->|(_ & _ & [Ht|Ht])]; [done | congruence | congruence]. }
  split; [|split].
  - unfold read. rewrite Hr1. cbn. by rewrite Hs.
  - rewrite (read_hit _ _ _ _ Hk). by rewrite Hs.
  - apply cache_get_object in Hk as (l & Hl & Hr).
    destruct (wf_present _ (wf_run evs _ Hw1) _ l Hl) as (r2 & c & Hr2 & Hc & Hp).
    exists c. split; [done|]. congruence.
Qed.

Lemma read_pending_surfaces_handle_witness :
  let w' := run [EvRead comments (JNum 42); EvSettle 3 (Fulfilled JNull)]
                (read comments (JNum 42) initial).2 in
  (read comments (JNum 42) initial).1 = Throw (JPromise 0) ∧
  read comments (JNum 42) w' = (Throw (JPromise 0), w') ∧
  ∃ c, calls_for "comments:42" w' = [c] ∧ c_promise c = 0.
Proof.
  apply (read_pending_surfaces_handle initial comments (JNum 42)
           [EvRead comments (JNum 42); EvSettle 3 (Fulfilled JNull)]
           (Resource 0 "pending" JNull)).
  - by exists [].
  - vm_compute. reflexivity.
  - reflexivity.
Defined.

(** C6. For every input, [read] and [preload] act on the cache in the
    same way, under the key made of the resource family, a colon and the
    string form of the input: [undefined], [null], [true] and [false]
    under their names, a safe integer under its decimal digits, [NaN] and
    the infinities under theirs, a string under itself, a promise under
    [[object Promise]], a plain object under [[object Object]] and any
    other object under what its own conversion returns. Afterwards that
    key is cached, every other key is as before, and the entry [read]
    looks at is the one under that key. Two pairs with the same family
    and the same string form get the same key. *)
Theorem key_is_family_colon_input h input w :
  let text :=
    match input with
    | JUndefined => "undefined"
    | JNull => "null"
    | JBool b => if b then "true" else "false"
    | JNum z => pretty (int53_val z)
    | JNaN => "NaN"
    | JInfinity negative => if negative then "-Infinity" else "Infinity"
    | JStr s => s
    | JPromise _ => "[object Promise]"
    | JRef _ => "[object Object]"
    | JObj _ own => own
    end in
  let k := fetchKey h +:+ ":" +:+ text in
  let wr := (read h input w).2 in
  let wp := (preload h input w).2 in
  wr = wp ∧
  is_Some (resourceCache wr !! k) ∧
  (resourceCache w !! k = None →
     resourceCache wr = <[k := length (objects w)]> (resourceCache w)) ∧
  (∀ k', k' ≠ k → resourceCache wr !! k' = resourceCache w !! k') ∧
  (read h input w).1 =
    match cache_get k wr with
    | Some r => run_arm (switch_status (status r)) r
    | None => ThrowTypeError
    end ∧
  (∀ h' input', fetchKey h' = fetchKey h → toString input' = toString input →
     make_key h' input' = k ∧
     resourceCache (read h' input' w).2 = resourceCache wr ∧
     resourceCache (preload h' input' w).2 = resourceCache wr).
Proof.
  cbv zeta.
  assert (Htext : match input with
    | JUndefined => "undefined"
    | JNull => "null"
    | JBool b => if b then "true" else "false"
    | JNum z => pretty (int53_val z)
    | JNaN => "NaN"
    | JInfinity negative => if negative then "-Infinity" else "Infinity"
    | JStr s => s
    | JPromise _ => "[object Promise]"
    | JRef _ => "[object Object]"
    | JObj _ own => own
    end = toString input).
  { by destruct input as [| |[]| | |[]| | | |]. }
  rewrite Htext. clear Htext.
  rewrite read_world. fold (make_key h input).
  split; [done|]. split; [apply accessData_cache_is_Some|].
  split; [intros Hk; by rewrite accessData_miss|].
  split; [intros k' Hne; by apply accessData_cache_other|].
  split.
  - unfold read. by destruct (cache_get _ _).
  - intros h' input' Hf Hi. rewrite read_world. cbn.
    assert (make_key h' input' = make_key h input) as ->.
    { unfold make_key. by rewrite Hf, Hi. }
    split; [done|].
    destruct (resourceCache w !! make_key h input) as [l|] eqn:E.
    + by rewrite !(accessData_hit _ _ _ _ l).
    + by rewrite !accessData_miss.
Qed.

Lemma key_is_family_colon_input_witness :
  let w := run failed_load initial in
  resourceCache (read comments (JNum (-7)) w).2 =
    <["comments:-7" := 1]> (resourceCache w) ∧
  resourceCache (preload posts1 (JStr "a b") w).2 =
    <["posts:1:a b" := 1]> (resourceCache w) ∧
  resourceCache (read posts1 (JObj 0 "1,2") w).2 !! "comments:42" =
    resourceCache w !! "comments:42" ∧
  make_key (createResource "posts:1" 9) (JStr "undefined") = "posts:1:undefined" ∧
  resourceCache (read (createResource "posts:1" 9) (JStr "undefined") w).2 =
    resourceCache (read posts1 JUndefined w).2 ∧
  resourceCache (preload (createResource "posts:1" 9) (JStr "undefined") w).2 =
    resourceCache (read posts1 JUndefined w).2.
Proof.
  cbv zeta.
  destruct (key_is_family_colon_input comments (JNum (-7)) (run failed_load initial))
    as (_ & _ & Hnum & _).
  destruct (key_is_family_colon_input posts1 (JStr "a b") (run failed_load initial))
    as (Hsame & _ & Hstr & _).
  destruct (key_is_family_colon_input posts1 (JObj 0 "1,2") (run failed_load initial))
    as (_ & _ & _ & Hother & _).
  destruct (key_is_family_colon_input posts1 JUndefined (run failed_load initial))
    as (_ & _ & _ & _ & _ & Hpair).
  split; [|split; [|split]].
  - apply Hnum. vm_compute. reflexivity.
  - rewrite <- Hsame. apply Hstr. vm_compute. reflexivity.
  - apply Hother. vm_compute. discriminate.
  - apply (Hpair (createResource "posts:1" 9) (JStr "undefined")); reflexivity.
Defined.

(** C7. [preload] returns normally, with no result, in every world. When
    the key is cached, in whatever state its entry is, the world is left
    as it is. When it is not, the loader is called once with the input,
    and a new pending entry holding the promise it returned is stored
    under the key, with the continuations registered on that promise. *)
Theorem preload_surfaces_nothing h input w :
  let k := make_key h input in
  let w' := (preload h input w).2 in
  (preload h input w).1 = Return JUndefined ∧
  (∀ r, cache_get k w = Some r → w' = w) ∧
  (resourceCache w !! k = None →
     cache_get k w' = Some (Resource (length (promises w)) "pending" JNull) ∧
     resourceCache w' !! k = Some (length (objects w)) ∧
     calls w' = calls w ++ [Call h input (length (promises w))] ∧
     promises w' !! length (promises w) =
       Some (PromiseObj None [length (objects w)])).
Proof.
  cbv zeta. cbn. split; [done|]. split.
  - intros r (l & Hl & _)%cache_get_object. by eapply accessData_hit.
  - intros Hk. rewrite accessData_miss by done. unfold cache_get. cbn.
    rewrite lookup_insert_eq. cbn.
    by rewrite !list_lookup_middle.
Qed.

Lemma preload_surfaces_nothing_witness :
  let w := run failed_load initial in
  (preload comments (JNum 42) w).2 = w ∧
  cache_get "posts:1:undefined" (preload posts1 JUndefined w).2 =
    Some (Resource 1 "pending" JNull).
Proof.
  cbv zeta.
  destruct (preload_surfaces_nothing comments (JNum 42) (run failed_load initial))
    as (_ & Hhit & _).
  destruct (preload_surfaces_nothing posts1 JUndefined (run failed_load initial))
    as (_ & _ & Hmiss).
  split.
  - apply (Hhit (Resource 0 "error" (JStr "network error"))).
    vm_compute. reflexivity.
  - apply Hmiss. vm_compute. reflexivity.
Defined.

(** C8. [read] leaves the world as it is when its key is cached. When it
    is not, the cache map gains that one key, bound to a new object
    appended to the store, and one loader call is made. In both cases
    every other key, and the entry under every key cached before, is as
    it was. *)
Theorem read_frame h input w :
  let k := make_key h input in
  let w' := (read h input w).2 in
  (is_Some (resourceCache w !! k) → w' = w) ∧
  (resourceCache w !! k = None →
     resourceCache w' = <[k := length (objects w)]> (resourceCache w) ∧
     objects w' = objects w ++ [Resource (length (promises w)) "pending" JNull] ∧
     calls w' = calls w ++ [Call h input (length (promises w))]) ∧
  (∀ k', k' ≠ k → resourceCache w' !! k' = resourceCache w !! k') ∧
  (∀ k' r, cache_get k' w = Some r → cache_get k' w' = Some r).
Proof.
  cbv zeta. rewrite read_world. split; [|split; [|split]].
  - intros [l Hl]. by eapply accessData_hit.
  - intros Hk. by rewrite accessData_miss.
  - intros k' Hne. by apply accessData_cache_other.
  - intros k' r (l & Hl & Hr)%cache_get_object. unfold cache_get.
    rewrite (accessData_cache_mono _ _ _ _ _ _ Hl). cbn.
    by apply accessData_objects.
Qed.

Lemma read_frame_witness :
  let w := run failed_load initial in
  (read comments (JNum 42) w).2 = w ∧
  resourceCache (read posts1 JUndefined w).2 =
    <["posts:1:undefined" := 1]> (resourceCache w) ∧
  cache_get "comments:42" (read posts1 JUndefined w).2 =
    Some (Resource 0 "error" (JStr "network error")).
Proof.
  cbv zeta.
  destruct (read_frame comments (JNum 42) (run failed_load initial))
    as (Hhit & _).
  destruct (read_frame posts1 JUndefined (run failed_load initial))
    as (_ & Hmiss & _ & Hkeep).
  split; [|split].
  - apply Hhit. vm_compute. eauto.
  - apply Hmiss. vm_compute. reflexivity.
  - apply Hkeep. vm_compute. reflexivity.
Defined.

(** C10. There is one cache: let a key that is not cached be cached by a
    [read] or a [preload] through one handle. Then at any later moment
    the entry under the key is the object that request created, holding
    the promise the first handle's loader returned; through any handle
    of the same family, [read] of the same input finds that entry and
    ends by its status, as it does through the first handle, and [read]
    and [preload] change nothing. The one loader call recorded for the
    key is the first handle's, and if the second handle has another
    loader, no call of it for that input is ever recorded. *)
Theorem handles_share_one_cache w h1 h2 input (by_read : bool) evs :
  reachable w →
  fetchKey h1 = fetchKey h2 →
  fetch h1 ≠ fetch h2 →
  resourceCache w !! make_key h1 input = None →
  let w1 := step w (if by_read then EvRead h1 input else EvPreload h1 input) in
  let w2 := run evs w1 in
  resourceCache w2 !! make_key h2 input = Some (length (objects w)) ∧
  (∃ r, cache_get (make_key h2 input) w2 = Some r ∧
        promise r = length (promises w) ∧
        read h2 input w2 = (run_arm (switch_status (status r)) r, w2)) ∧
  (read h2 input w2).1 ≠ ThrowTypeError ∧
  calls_for (make_key h2 input) w2 = [Call h1 input (length (promises w))] ∧
  read h2 input w2 = read h1 input w2 ∧
  (read h2 input w2).2 = w2 ∧
  (preload h2 input w2).2 = w2 ∧
  (∀ c, c ∈ calls w2 → ¬ (c_handle c = h2 ∧ c_input c = input)).
Proof.
  intros Hw%reachable_wf Hf Hne Hk w1 w2.
  assert (Hkey : make_key h2 input = make_key h1 input).
  { unfold make_key. by rewrite Hf. }
  assert (Hw1 : w1 = accessData h1 (make_key h1 input) input w).
  { unfold w1. destruct by_read; cbn; [apply read_world | done]. }
  assert (Hwf1 : wf w1) by (rewrite Hw1; by apply wf_accessData).
  assert (Hcalls1 : calls_for (make_key h1 input) w1 =
                    [Call h1 input (length (promises w))]).
  { rewrite Hw1, accessData_miss by done.
    rewrite (calls_for_snoc _ _ w (Call h1 input (length (promises w)))) by done.
    rewrite (wf_absent _ Hw _ Hk). by rewrite decide_True. }
  assert (Hloc1 : resourceCache w1 !! make_key h1 input = Some (length (objects w))).
  { rewrite Hw1, accessData_miss by done. cbn. apply lookup_insert_eq. }
  pose proof (run_cache_mono evs w1 _ _ Hloc1) as Hloc2. fold w2 in Hloc2.
  assert (Hsame : calls_for (make_key h1 input) w2 =
                  calls_for (make_key h1 input) w1) by by eapply run_calls_for_hit.
  destruct (wf_present _ (wf_run evs w1 Hwf1) _ _ Hloc2) as (r2 & c & Hobj & Hc & Hp).
  fold w2 in Hobj, Hc.
  rewrite Hsame, Hcalls1 in Hc. injection Hc as <-. cbn in Hp.
  assert (Hr2 : cache_get (make_key h1 input) w2 = Some r2).
  { unfold cache_get. by rewrite Hloc2. }
  assert (Hread2 : read h2 input w2 = (run_arm (switch_status (status r2)) r2, w2)).
  { apply read_hit. by rewrite Hkey. }
  split; [by rewrite Hkey|]. split; [|split; [|split; [|split; [|split; [|split]]]]].
  - exists r2. rewrite Hkey. done.
  - rewrite Hread2. cbn. by destruct (switch_status (status r2)).
  - by rewrite Hkey, Hsame.
  - rewrite (read_hit h1 input w2 r2) by done. done.
  - by rewrite Hread2.
  - cbn. rewrite Hkey. by eapply accessData_hit.
  - intros c Hc [Hh Hi].
    assert (Hin : c ∈ calls_for (make_key h1 input) w2).
    { unfold calls_for. apply list_elem_of_filter. split; [|done].
      unfold call_key. by rewrite Hh, Hi. }
    rewrite Hsame, Hcalls1 in Hin. apply list_elem_of_singleton in Hin.
    subst c. cbn in Hh. by subst h2.
Qed.

Lemma handles_share_one_cache_witness :
  let first := preloadImage 1 "cat.png" in
  let second := preloadImage 2 "cat.png" in
  let w2 := run [EvSettle 1 (Fulfilled (JStr "cat.png")); EvMicrotask]
                (step (run failed_load initial) (EvRead first JUndefined)) in
  resourceCache w2 !! make_key second JUndefined = Some 1 ∧
  (∃ r, cache_get (make_key second JUndefined) w2 = Some r ∧
        promise r = 1 ∧
        read second JUndefined w2 = (run_arm (switch_status (status r)) r, w2)) ∧
  (read second JUndefined w2).1 ≠ ThrowTypeError ∧
  calls_for (make_key second JUndefined) w2 = [Call first JUndefined 1] ∧
  read second JUndefined w2 = read first JUndefined w2 ∧
  (read second JUndefined w2).2 = w2 ∧
  (preload second JUndefined w2).2 = w2 ∧
  (∀ c, c ∈ calls w2 → ¬ (c_handle c = second ∧ c_input c = JUndefined)).
Proof.
  apply (handles_share_one_cache (run failed_load initial)
           (preloadImage 1 "cat.png") (preloadImage 2 "cat.png") JUndefined true).
  - by exists failed_load.
  - reflexivity.
  - cbn. lia.
  - vm_compute. reflexivity.
Defined.

(** ** Objects, promises and queued continuations hang together *)

Lemma reachable_run evs w : reachable w → reachable (run evs w).
Proof.
  intros [evs0 ->]. exists (evs0 ++ evs). unfold run. by rewrite foldl_app.
Qed.

Lemma linked_initial : linked initial.
Proof.
  split; cbn.
  - intros l r Hl. by rewrite lookup_nil in Hl.
  - intros p pr l Hp. by rewrite lookup_nil in Hp.
  - intros l o Hl. by apply elem_of_nil in Hl.
Qed.

Lemma linked_accessData h key input w :
  linked w → linked (accessData h key input w).
Proof.
  intros Hw. destruct (resourceCache w !! key) as [l0|] eqn:E.
  { by rewrite (accessData_hit _ _ _ _ l0). }
  rewrite accessData_miss by done.
  set (ln := length (objects w)). set (pn := length (promises w)).
  split; cbn.
  - intros l r [[Hlt Hr] | [-> <-]]%lookup_snoc_Some.
    + destruct (linked_object _ Hw l r Hr) as (pr & Hpr & Hst).
      exists pr. split; [by apply lookup_app_l_Some | done].
    + exists (PromiseObj None [ln]). cbn. split; [by apply list_lookup_middle|].
      split; [done | by left].
  - intros p pr l [[Hlt Hp] | [-> <-]]%lookup_snoc_Some Hl.
    + destruct (linked_reaction _ Hw p pr l Hp Hl) as (r & Hr & Hrp).
      exists r. split; [by apply lookup_app_l_Some | done].
    + cbn in Hl. apply list_elem_of_singleton in Hl as ->.
      exists (Resource pn "pending" JNull). split; [by apply list_lookup_middle | done].
  - intros l o Hl.
    destruct (linked_task _ Hw l o Hl) as (r & pr & Hr & Hpr & Hst).
    exists r, pr. split; [by apply lookup_app_l_Some|].
    split; [by apply lookup_app_l_Some | done].
Qed.

Lemma linked_settle p o w : linked w → linked (settle p o w).
Proof.
  intros Hw. unfold settle.
  destruct (promises w !! p) as [[[o'|] rs]|] eqn:E; try done.
  split; cbn.
  - intros l r Hr.
    destruct (linked_object _ Hw l r Hr) as (pr & Hpr & Hst).
    destruct (decide (promise r = p)) as [Heq|Hne].
    + rewrite Heq in Hpr. rewrite E in Hpr. injection Hpr as <-. cbn in Hst.
      exists (PromiseObj (Some o) []). rewrite Heq. split.
      * apply list_lookup_insert_eq. by eapply lookup_lt_Some.
      * cbn. left. split; [apply Hst|].
        apply elem_of_app. right. apply list_elem_of_fmap. exists l.
        split; [done | apply Hst].
    + exists pr. rewrite list_lookup_insert_ne by done. split; [done|].
      destruct (p_state pr) as [o1|]; [|done].
      destruct Hst as [[Hs Hin]|Hs]; [left | by right].
      split; [done|]. apply elem_of_app. by left.
  - intros q pr l Hq Hl. destruct (decide (p = q)) as [<-|Hne].
    + rewrite list_lookup_insert_eq in Hq by by eapply lookup_lt_Some.
      injection Hq as <-. cbn in Hl. by apply elem_of_nil in Hl.
    + rewrite list_lookup_insert_ne in Hq by done.
      by eapply linked_reaction.
  - intros l o1 [Hl|Hl]%elem_of_app.
    + destruct (linked_task _ Hw l o1 Hl) as (r & pr & Hr & Hpr & Hst).
      exists r, pr. split; [done|]. split; [|done].
      rewrite list_lookup_insert_ne; [done|]. intros Heq.
      rewrite <- Heq, E in Hpr. injection Hpr as <-. done.
    + apply list_elem_of_fmap in Hl as (l' & [= -> ->] & Hin).
      destruct (linked_reaction _ Hw p _ l' E Hin) as (r & Hr & Hrp).
      exists r, (PromiseObj (Some o) []). split; [done|]. split; [|done].
      rewrite Hrp. apply list_lookup_insert_eq. by eapply lookup_lt_Some.
Qed.

Lemma linked_run_microtask w : linked w → linked (run_microtask w).
Proof.
  intros Hw. unfold run_microtask.
  destruct (microtasks w) as [|[l0 o] rest] eqn:E; [done|].
  assert (Hhead : ∃ r0 pr0, objects w !! l0 = Some r0 ∧
            promises w !! promise r0 = Some pr0 ∧ p_state pr0 = Some o).
  { apply (linked_task _ Hw). rewrite E. by left. }
  destruct Hhead as (r0 & pr0 & Hr0 & Hpr0 & Hst0).
  split; cbn.
  - intros l r. destruct (decide (l0 = l)) as [<-|Hne].
    + rewrite list_lookup_alter_eq, Hr0. intros [= <-].
      exists pr0. assert (promise (react o r0) = promise r0) as -> by by destruct o.
      split; [done|]. rewrite Hst0. right. by destruct o.
    + rewrite list_lookup_alter_ne by done. intros Hr.
      destruct (linked_object _ Hw l r Hr) as (pr & Hpr & Hst).
      exists pr. split; [done|].
      destruct (p_state pr) as [o1|]; [|done].
      destruct Hst as [[Hs Hin]|Hs]; [left | by right].
      split; [done|]. rewrite E in Hin.
      apply elem_of_cons in Hin as [[= ? ?]|Hin]; [congruence | done].
  - intros p pr l Hp Hl.
    destruct (linked_reaction _ Hw p pr l Hp Hl) as (r & Hr & Hrp).
    destruct (decide (l0 = l)) as [<-|Hne].
    + exists (react o r). rewrite list_lookup_alter_eq, Hr.
      split; [done | by destruct o].
    + exists r. by rewrite list_lookup_alter_ne.
  - intros l o1 Hl.
    destruct (linked_task _ Hw l o1) as (r & pr & Hr & Hpr & Hst).
    { rewrite E. by right. }
    destruct (decide (l0 = l)) as [<-|Hne].
    + exists (react o r), pr. rewrite list_lookup_alter_eq, Hr.
      assert (promise (react o r) = promise r) as -> by by destruct o.
      done.
    + exists r, pr. by rewrite list_lookup_alter_ne.
Qed.

Lemma linked_step w ev : linked w → linked (step w ev).
Proof.
  intros Hw. destruct ev; cbn.
  - rewrite read_world. by apply linked_accessData.
  - by apply linked_accessData.
  - by apply linked_settle.
  - by apply linked_run_microtask.
Qed.

Lemma linked_run evs w : linked w → linked (run evs w).
Proof.
  revert w. induction evs as [|ev evs IH]; intros w Hw; [done|].
  rewrite run_cons. by apply IH, linked_step.
Qed.

Lemma reachable_linked w : reachable w → linked w.
Proof. intros [evs ->]. apply linked_run, linked_initial. Qed.

(** ** One object, one promise, one call per key *)

Lemma tally_initial : tally initial.
Proof.
  split; cbn; done.
Qed.

Lemma tally_accessData h key input w :
  tally w → tally (accessData h key input w).
Proof.
  intros Hw. destruct (resourceCache w !! key) as [l0|] eqn:E.
  { by rewrite (accessData_hit _ _ _ _ l0). }
  rewrite accessData_miss by done.
  split; cbn.
  - rewrite map_size_insert_None, length_app by done. cbn.
    rewrite (tally_size _ Hw). lia.
  - rewrite !length_app. cbn. rewrite (tally_promises _ Hw). lia.
  - rewrite !length_app. cbn. rewrite (tally_calls _ Hw). lia.
  - intros k l [[<- <-] | [Hne Hk]]%lookup_insert_Some; rewrite length_app; cbn.
    + lia.
    + apply (tally_bound _ Hw) in Hk. lia.
  - intros k1 k2 l [[<- <-] | [Hne1 Hk1]]%lookup_insert_Some
                    [[<- Hl] | [Hne2 Hk2]]%lookup_insert_Some.
    + done.
    + apply (tally_bound _ Hw) in Hk2. lia.
    + apply (tally_bound _ Hw) in Hk1. lia.
    + by eapply tally_inj.
  - intros l r [[Hlt Hr] | [-> <-]]%lookup_snoc_Some.
    + by eapply tally_promise.
    + cbn. apply (tally_promises _ Hw).
Qed.

Lemma tally_step w ev : tally w → tally (step w ev).
Proof.
  intros Hw. destruct ev; cbn.
  - rewrite read_world. by apply tally_accessData.
  - by apply tally_accessData.
  - unfold settle. destruct (promises w !! p) as [[[?|] ?]|]; try done.
    destruct Hw. split; cbn; try done. by rewrite length_insert.
  - unfold run_microtask. destruct (microtasks w) as [|[l0 o] rest]; [done|].
    destruct Hw as [Hs Hp Hc Hb Hi Hpr]. split; cbn; try done.
    + by rewrite length_alter.
    + by rewrite length_alter.
    + by rewrite length_alter.
    + intros k l Hk. rewrite length_alter. by eapply Hb.
    + intros l r. destruct (decide (l0 = l)) as [<-|Hne].
      * rewrite list_lookup_alter_eq. intros (r0 & Hr0 & ->)%fmap_Some.
        rewrite <- (Hpr l0 r0 Hr0). by destruct o.
      * rewrite list_lookup_alter_ne by done. apply Hpr.
Qed.

Lemma tally_run evs w : tally w → tally (run evs w).
Proof.
  revert w. induction evs as [|ev evs IH]; intros w Hw; [done|].
  rewrite run_cons. by apply IH, tally_step.
Qed.

Lemma reachable_tally w : reachable w → tally w.
Proof. intros [evs ->]. apply tally_run, tally_initial. Qed.

(** ** More about [read] *)

(** What [read] can do, by the status of the entry it finds. *)
Lemma read_cases h input w :
  wf w →
  ∃ r, cache_get (make_key h input) (read h input w).2 = Some r ∧
    ((status r = "pending" ∧ (read h input w).1 = Throw (JPromise (promise r))) ∨
     (status r = "resolved" ∧ (read h input w).1 = Return (value r)) ∨
     (status r = "error" ∧ (read h input w).1 = Return JUndefined)).
Proof.
  intros Hw. rewrite read_world.
  destruct (accessData_entry h input w Hw) as (r & Hr).
  exists r. split; [done|].
  pose proof Hr as (l & _ & Hl)%cache_get_object.
  unfold read. rewrite Hr. cbn.
  destruct (wf_status _ (wf_accessData h input w Hw) l r Hl) as [Hs|[Hs|Hs]];
    rewrite Hs; auto.
Qed.

(** [read] that returns has found the key cached and changed nothing. *)
Lemma read_return_hit h input w v :
  wf w → (read h input w).1 = Return v →
  is_Some (resourceCache w !! make_key h input) ∧ (read h input w).2 = w.
Proof.
  intros Hw Hv. rewrite read_world.
  destruct (resourceCache w !! make_key h input) as [l|] eqn:E.
  { split; [eauto | by eapply accessData_hit]. }
  exfalso. revert Hv. unfold read. rewrite accessData_miss by done.
  unfold cache_get. cbn. rewrite lookup_insert_eq. cbn.
  by rewrite list_lookup_middle.
Qed.

(** X1. In every world the page can be in, [read] finds an entry under
    its key after [accessData], so the property access on the result of
    the lookup is safe; and it ends in one of three ways: it throws the
    promise of a pending entry, returns the value of a resolved one, or
    returns [undefined] for one whose load failed. On a key that was not
    cached it always throws, and what it throws is the promise the loader
    has just returned. *)
Theorem read_is_safe w h input :
  reachable w →
  (read h input w).1 ≠ ThrowTypeError ∧
  (∃ r, cache_get (make_key h input) (read h input w).2 = Some r ∧
    ((status r = "pending" ∧ (read h input w).1 = Throw (JPromise (promise r))) ∨
     (status r = "resolved" ∧ (read h input w).1 = Return (value r)) ∨
     (status r = "error" ∧ (read h input w).1 = Return JUndefined))) ∧
  (resourceCache w !! make_key h input = None →
     (read h input w).1 = Throw (JPromise (length (promises w))) ∧
     calls (read h input w).2 = calls w ++ [Call h input (length (promises w))]).
Proof.
  intros Hw%reachable_wf.
  pose proof (read_cases h input w Hw) as (r & Hr & Hc).
  split; [|split].
  - destruct Hc as [[_ ->]|[[_ ->]|[_ ->]]]; done.
  - eauto.
  - intros Hk. unfold read. rewrite accessData_miss by done.
    unfold cache_get. cbn. rewrite lookup_insert_eq. cbn.
    by rewrite list_lookup_middle.
Qed.

Lemma read_is_safe_witness :
  let w := run failed_load initial in
  (read posts1 JUndefined w).1 ≠ ThrowTypeError ∧
  (∃ r, cache_get (make_key posts1 JUndefined) (read posts1 JUndefined w).2 = Some r ∧
    ((status r = "pending" ∧ (read posts1 JUndefined w).1 = Throw (JPromise (promise r))) ∨
     (status r = "resolved" ∧ (read posts1 JUndefined w).1 = Return (value r)) ∨
     (status r = "error" ∧ (read posts1 JUndefined w).1 = Return JUndefined))) ∧
  (read posts1 JUndefined w).1 = Throw (JPromise 1) ∧
  calls (read posts1 JUndefined w).2 = calls w ++ [Call posts1 JUndefined 1].
Proof.
  cbv zeta.
  destruct (read_is_safe (run failed_load initial) posts1 JUndefined)
    as (Hsafe & Hcases & Hmiss).
  - by exists failed_load.
  - split; [exact Hsafe|]. split; [exact Hcases|].
    apply Hmiss. vm_compute. reflexivity.
Defined.

(** X2. Whatever [read] returns comes from the one loader call made for
    its key: the promise that call returned has been fulfilled with the
    returned value, or it has been rejected and the returned value is
    [undefined]. *)
Theorem read_returns_loaded_value w h input v :
  reachable w →
  (read h input w).1 = Return v →
  ∃ c pr, calls_for (make_key h input) w = [c] ∧
          promises w !! c_promise c = Some pr ∧
          (p_state pr = Some (Fulfilled v) ∨
           (∃ e, p_state pr = Some (Rejected e)) ∧ v = JUndefined).
Proof.
  intros Hr Hv. pose proof (reachable_wf _ Hr) as Hw.
  pose proof (reachable_linked _ Hr) as Hlk.
  destruct (read_return_hit h input w v Hw Hv) as [[l Hl] Hsame].
  destruct (wf_present _ Hw _ l Hl) as (r & c & Hobj & Hc & Hp).
  destruct (linked_object _ Hlk l r Hobj) as (pr & Hpr & Hst).
  exists c, pr. split; [done|]. split; [congruence|].
  assert (Hget : cache_get (make_key h input) w = Some r).
  { unfold cache_get. by rewrite Hl. }
  rewrite (read_hit _ _ _ _ Hget) in Hv. cbn in Hv.
  destruct (p_state pr) as [[x|e]|]; cbn in Hst.
  - destruct Hst as [[Hs _]|[Hs Hx]]; rewrite Hs in Hv; [done|].
    left. change (Return (value r) = Return v) in Hv. congruence.
  - destruct Hst as [[Hs _]|[Hs Hx]]; rewrite Hs in Hv; [done|].
    right. change (Return JUndefined = Return v) in Hv.
    split; [eauto | congruence].
  - destruct Hst as [Hs _]. by rewrite Hs in Hv.
Qed.

Lemma read_returns_loaded_value_witness :
  ∃ c pr, calls_for (make_key posts1 (JStr "")) (run finished_load initial) = [c] ∧
          promises (run finished_load initial) !! c_promise c = Some pr ∧
          (p_state pr = Some (Fulfilled (JRef 0)) ∨
           (∃ e, p_state pr = Some (Rejected e)) ∧ JRef 0 = JUndefined).
Proof.
  apply (read_returns_loaded_value (run finished_load initial) posts1 (JStr "")).
  - by exists finished_load.
  - vm_compute. reflexivity.
Defined.

(** ** From settlement to the reader *)

Lemma run_microtasks_only n w :
  length (microtasks w) = n →
  microtasks (run (replicate n EvMicrotask) w) = [] ∧
  promises (run (replicate n EvMicrotask) w) = promises w.
Proof.
  revert w. induction n as [|n IH]; intros w Hn.
  - cbn. split; [|done]. by destruct (microtasks w).
  - cbn [replicate]. rewrite run_cons. cbn [step].
    destruct (microtasks w) as [|[l o] rest] eqn:E; [done|].
    destruct (IH (run_microtask w)) as [Hq Hp].
    { unfold run_microtask. rewrite E. cbn in *. lia. }
    split; [done|]. rewrite Hp. unfold run_microtask. by rewrite E.
Qed.

Lemma drain_spec w :
  microtasks (drain w) = [] ∧ promises (drain w) = promises w.
Proof. by apply run_microtasks_only. Qed.

(** X3. Let the load of a cached key be in flight. Once the host has
    settled its promise and run the queued continuations, [read] for the
    key no longer suspends: it returns the value the promise was fulfilled
    with, or [undefined] when the promise was rejected, and it changes
    nothing. *)
Theorem settled_load_is_readable w h input r pr o :
  reachable w →
  cache_get (make_key h input) w = Some r →
  promises w !! promise r = Some pr → p_state pr = None →
  let w' := drain (settle (promise r) o w) in
  read h input w' =
    (match o with Fulfilled v => Return v | Rejected _ => Return JUndefined end, w').
Proof.
  intros Hr Hget Hpr Hst w'. subst w'.
  set (w1 := settle (promise r) o w).
  assert (Hr1 : reachable w1) by apply (reachable_run [EvSettle (promise r) o] w Hr).
  destruct (drain_spec w1) as [Hq Hp].
  set (w' := drain w1) in *.
  assert (Hr' : reachable w') by by apply reachable_run.
  assert (Hp1 : promises w' !! promise r = Some (PromiseObj (Some o) [])).
  { rewrite Hp. unfold w1, settle. rewrite Hpr. destruct pr as [st rs].
    cbn in Hst. subst st. cbn. apply list_lookup_insert_eq.
    by eapply lookup_lt_Some. }
  destruct (run_entry (EvSettle (promise r) o ::
              replicate (length (microtasks w1)) EvMicrotask) w _ r
              (reachable_wf _ Hr) Hget) as (r' & Hget' & Hev).
  change (cache_get (make_key h input) w' = Some r') in Hget'.
  assert (Hprom : promise r' = promise r).
  { destruct Hev as [->|(? & _)]; done. }
  pose proof Hget' as (l & _ & Hobj)%cache_get_object.
  destruct (linked_object _ (reachable_linked _ Hr') l r' Hobj) as (pr' & Hpr' & Hst').
  rewrite Hprom, Hp1 in Hpr'. injection Hpr' as <-. cbn in Hst'.
  destruct Hst' as [[_ Hin]|Hs].
  { rewrite Hq in Hin. by apply elem_of_nil in Hin. }
  rewrite (read_hit _ _ _ _ Hget').
  destruct o as [v|e]; destruct Hs as [Hs Hv]; rewrite Hs; [|done].
  change (run_arm (switch_status "resolved") r') with (Return (value r')).
  by rewrite Hv.
Qed.

Lemma settled_load_is_readable_witness :
  let w := run [EvPreload posts1 (JStr ""); EvRead comments (JNum 42);
                EvSettle 1 (Rejected JNull)] initial in
  let w' := drain (settle 0 (Fulfilled (JStr "posts")) w) in
  read posts1 (JStr "") w' = (Return (JStr "posts"), w').
Proof.
  apply (settled_load_is_readable
           (run [EvPreload posts1 (JStr ""); EvRead comments (JNum 42);
                 EvSettle 1 (Rejected JNull)] initial)
           posts1 (JStr "") (Resource 0 "pending" JNull) (PromiseObj None [0])
           (Fulfilled (JStr "posts"))).
  - by eexists.
  - vm_compute. reflexivity.
  - vm_compute. reflexivity.
  - reflexivity.
Defined.

(** ** Nothing is evicted, nothing is loaded unasked *)

Lemma requested_snoc evs ev :
  requested (evs ++ [ev]) =
  requested evs ∪ (match request_key ev with Some k => {[k]} | None => ∅ end).
Proof.
  unfold requested. rewrite omap_app, list_to_set_app_L. f_equal.
  cbn. destruct (request_key ev); cbn; [|done].
  by rewrite (right_id_L ∅ (∪)).
Qed.

Lemma cache_dom_requested evs :
  dom (resourceCache (run evs initial)) = requested evs.
Proof.
  induction evs as [|ev evs IH] using rev_ind.
  - cbn. by rewrite dom_empty_L.
  - rewrite run_snoc, requested_snoc, <- IH.
    apply set_eq. intros k.
    rewrite elem_of_union, !elem_of_dom, step_cache_dom.
    destruct (request_key ev) as [k'|].
    + rewrite elem_of_singleton. split; (intros [?|?]; [by left | right; congruence]).
    + split; (intros [?|?]; [by left | done]).
Qed.

(** X4. After any run from the empty cache, the cached keys are exactly
    the keys that [read] or [preload] were called for, so no key is ever
    dropped; and the loader calls made, the promises, and the resource
    objects each number as many as the distinct keys asked for. *)
Theorem cache_is_what_was_requested evs :
  let w := run evs initial in
  dom (resourceCache w) = requested evs ∧
  length (calls w) = size (requested evs) ∧
  length (promises w) = size (requested evs) ∧
  length (objects w) = size (requested evs).
Proof.
  cbv zeta.
  pose proof (tally_run evs initial tally_initial) as Ht.
  pose proof (cache_dom_requested evs) as Hd.
  assert (Hn : length (objects (run evs initial)) = size (requested evs)).
  { rewrite <- Hd, size_dom. symmetry. apply Ht. }
  split; [done|].
  rewrite (tally_calls _ Ht), (tally_promises _ Ht). done.
Qed.

(** X5. In every world the page can be in, the entries under two
    different keys are two objects holding two different promises: a
    reader suspended on one key is never woken by the load of another. *)
Theorem keys_do_not_share_loads w k1 k2 l1 l2 r1 r2 :
  reachable w →
  resourceCache w !! k1 = Some l1 → objects w !! l1 = Some r1 →
  resourceCache w !! k2 = Some l2 → objects w !! l2 = Some r2 →
  k1 ≠ k2 →
  l1 ≠ l2 ∧ promise r1 ≠ promise r2.
Proof.
  intros Ht%reachable_tally Hk1 Hr1 Hk2 Hr2 Hne.
  assert (Hl : l1 ≠ l2).
  { intros <-. apply Hne. by eapply tally_inj. }
  split; [done|].
  by rewrite (tally_promise _ Ht l1 r1 Hr1), (tally_promise _ Ht l2 r2 Hr2).
Qed.

Lemma keys_do_not_share_loads_witness :
  0 ≠ 1 ∧ promise (Resource 0 "error" (JStr "network error")) ≠
          promise (Resource 1 "pending" JNull).
Proof.
  apply (keys_do_not_share_loads
           (run (failed_load ++ [EvPreload posts1 JUndefined]) initial)
           "comments:42" "posts:1:undefined").
  - by eexists.
  - vm_compute. reflexivity.
  - vm_compute. reflexivity.
  - vm_compute. reflexivity.
  - vm_compute. reflexivity.
  - vm_compute. discriminate.
Defined.

(** ** Keys that coincide, keys that cannot *)

(** X6. The key is plain text: two resource families and inputs whose
    [family:input] texts coincide (family ["posts:1"] with input [""] and
    family ["posts"] with input ["1:"]; a number and the string of its
    digits) are one entry. After a [read] through the first pair, at any
    later moment, an entry exists under the key, [read] through the
    second pair finds it and ends by its status, exactly as [read]
    through the first pair does, and neither [read] nor [preload]
    through the second pair changes anything. One loader call is
    recorded for the key, the one whose promise the entry holds; when the
    key was not cached before the first [read], it is the first pair's
    call, so the second loader is not called. *)
Theorem coinciding_keys_share_entry w h1 i1 h2 i2 evs :
  reachable w →
  make_key h1 i1 = make_key h2 i2 →
  let w2 := run evs (read h1 i1 w).2 in
  (∃ r c, cache_get (make_key h2 i2) w2 = Some r ∧
          read h2 i2 w2 = (run_arm (switch_status (status r)) r, w2) ∧
          calls_for (make_key h2 i2) w2 = [c] ∧
          c_promise c = promise r ∧
          (resourceCache w !! make_key h1 i1 = None →
             c = Call h1 i1 (length (promises w)))) ∧
  (read h2 i2 w2).1 ≠ ThrowTypeError ∧
  read h2 i2 w2 = read h1 i1 w2 ∧
  (read h2 i2 w2).2 = w2 ∧
  (preload h2 i2 w2).2 = w2.
Proof.
  intros Hw%reachable_wf Hkey w2.
  set (w1 := (read h1 i1 w).2) in *.
  assert (Hw1 : w1 = accessData h1 (make_key h1 i1) i1 w) by apply read_world.
  assert (Hwf1 : wf w1) by (rewrite Hw1; by apply wf_accessData).
  destruct (accessData_cache_is_Some h1 (make_key h1 i1) i1 w) as [l Hl1].
  rewrite <- Hw1 in Hl1.
  pose proof (run_cache_mono evs w1 _ _ Hl1) as Hl. fold w2 in Hl.
  destruct (wf_present _ (wf_run evs w1 Hwf1) _ _ Hl) as (r & c & Hobj & Hc & Hp).
  fold w2 in Hobj, Hc.
  assert (Hr : cache_get (make_key h1 i1) w2 = Some r).
  { unfold cache_get. by rewrite Hl. }
  assert (Hread2 : read h2 i2 w2 = (run_arm (switch_status (status r)) r, w2)).
  { apply read_hit. by rewrite <- Hkey. }
  split; [|split; [|split; [|split]]].
  - exists r, c. rewrite <- Hkey. split; [done|]. split; [done|].
    split; [done|]. split; [done|]. intros Hk.
    assert (Hc1 : calls_for (make_key h1 i1) w1 = [Call h1 i1 (length (promises w))]).
    { rewrite Hw1, accessData_miss by done.
      rewrite (calls_for_snoc _ _ w (Call h1 i1 (length (promises w)))) by done.
      rewrite (wf_absent _ Hw _ Hk). by rewrite decide_True. }
    assert (Hsame : calls_for (make_key h1 i1) w2 =
                    calls_for (make_key h1 i1) w1) by by eapply run_calls_for_hit.
    rewrite Hsame, Hc1 in Hc. congruence.
  - rewrite Hread2. cbn. by destruct (switch_status (status r)).
  - by rewrite Hread2, (read_hit h1 i1 w2 r).
  - by rewrite Hread2.
  - cbn. rewrite <- Hkey. by eapply accessData_hit.
Qed.

Lemma coinciding_keys_share_entry_witness :
  let w2 := run [EvSettle 0 (Fulfilled (JRef 7)); EvMicrotask]
                (read posts1 (JStr "") initial).2 in
  (∃ r c, cache_get (make_key (createResource "posts" 9) (JStr "1:")) w2 = Some r ∧
          read (createResource "posts" 9) (JStr "1:") w2 =
            (run_arm (switch_status (status r)) r, w2) ∧
          calls_for (make_key (createResource "posts" 9) (JStr "1:")) w2 = [c] ∧
          c_promise c = promise r ∧
          (resourceCache initial !! make_key posts1 (JStr "") = None →
             c = Call posts1 (JStr "") (length (promises initial)))) ∧
  (read (createResource "posts" 9) (JStr "1:") w2).1 ≠ ThrowTypeError ∧
  read (createResource "posts" 9) (JStr "1:") w2 = read posts1 (JStr "") w2 ∧
  (read (createResource "posts" 9) (JStr "1:") w2).2 = w2 ∧
  (preload (createResource "posts" 9) (JStr "1:") w2).2 = w2.
Proof.
  apply (coinciding_keys_share_entry initial posts1 (JStr "")
           (createResource "posts" 9) (JStr "1:")).
  - by exists [].
  - reflexivity.
Defined.

Lemma string_length_app (s1 s2 : string) :
  String.length (s1 +:+ s2) = String.length s1 + String.length s2.
Proof.
  induction s1 as [|a s1 IH]; [done|].
  change (S (String.length (s1 +:+ s2)) = S (String.length s1 + String.length s2)).
  by rewrite IH.
Qed.

Lemma string_app_inv_tail (s1 s2 t : string) :
  s1 +:+ t = s2 +:+ t → s1 = s2.
Proof.
  revert s2. induction s1 as [|a s1 IH]; intros [|b s2] H.
  - done.
  - apply (f_equal String.length) in H. rewrite !string_length_app in H.
    cbn in H. lia.
  - apply (f_equal String.length) in H. rewrite !string_length_app in H.
    cbn in H. lia.
  - change (String a (s1 +:+ t) = String b (s2 +:+ t)) in H.
    injection H as -> H. f_equal. by apply IH.
Qed.

Lemma int53_val_inj (a b : int53) : int53_val a = int53_val b → a = b.
Proof.
  destruct a as [za pa], b as [zb pb]. cbn. intros ->.
  f_equal. apply proof_irrel.
Qed.

(** X7. The keys of the posts, user, friends and comments resources that
    [makeDataResource] builds never coincide with one another, for any
    user ids and any inputs, within one call or across two. And for two
    different safe-integer user ids, the posts of the two users, and
    their user records, are kept under different keys for the same
    input. *)
Theorem users_are_cached_apart fns1 fns2 :
  (∀ (u1 u2 i j : jsval),
     let r1 := makeDataResource fns1 u1 in
     let r2 := makeDataResource fns2 u2 in
     make_key (Data.posts r1) i ≠ make_key (Data.user r2) j ∧
     make_key (Data.posts r1) i ≠ make_key (Data.friends r2) j ∧
     make_key (Data.posts r1) i ≠ make_key (Data.comments r2) j ∧
     make_key (Data.user r1) i ≠ make_key (Data.friends r2) j ∧
     make_key (Data.user r1) i ≠ make_key (Data.comments r2) j ∧
     make_key (Data.friends r1) i ≠ make_key (Data.comments r2) j) ∧
  (∀ (u1 u2 : int53) (i : jsval),
     u1 ≠ u2 →
     let r1 := makeDataResource fns1 (JNum u1) in
     let r2 := makeDataResource fns2 (JNum u2) in
     make_key (Data.posts r1) i ≠ make_key (Data.posts r2) i ∧
     make_key (Data.user r1) i ≠ make_key (Data.user r2) i).
Proof.
  split.
  - intros u1 u2 i j r1 r2. subst r1 r2. unfold make_key, makeDataResource. cbn.
    repeat split; intros H; discriminate H.
  - intros u1 u2 i Hne r1 r2. subst r1 r2. unfold make_key, makeDataResource. cbn.
    assert (Hsep : ∀ (pre : string),
      (pre +:+ pretty (int53_val u1)) +:+ ":" +:+ toString i ≠
      (pre +:+ pretty (int53_val u2)) +:+ ":" +:+ toString i).
    { intros pre H. apply string_app_inv_tail in H.
      apply (inj (String.append pre)) in H. apply (inj pretty) in H.
      by apply int53_val_inj in H. }
    split; apply Hsep.
Qed.

Lemma users_are_cached_apart_witness :
  let r1 := makeDataResource (Data.Loaders 0 1 2 3) (JNum 1) in
  let r2 := makeDataResource (Data.Loaders 4 5 6 7) (JNum 12) in
  make_key (Data.posts r1) JUndefined ≠ make_key (Data.posts r2) JUndefined ∧
  make_key (Data.user r1) JUndefined ≠ make_key (Data.user r2) JUndefined.
Proof.
  destruct (users_are_cached_apart (Data.Loaders 0 1 2 3) (Data.Loaders 4 5 6 7))
    as [_ Hapart].
  apply (Hapart 1%int53 12%int53 JUndefined).
  intros [= H].
Defined.

(** ** The callers *)

Lemma accessData_calls_le h key input w :
  (length (calls w) ≤ length (calls (accessData h key input w)) ≤ S (length (calls w)))%nat.
Proof.
  destruct (resourceCache w !! key) as [l|] eqn:E.
  - rewrite (accessData_hit _ _ _ _ l) by done. lia.
  - rewrite accessData_miss by done. cbn. rewrite length_app. cbn. lia.
Qed.


(** [forEach] over the posts kept by [slice]. *)
Lemma preload_each_spec h ids w :
  let w1 := foldl (λ w id, (preload h id w).2) w ids in
  (∀ id, id ∈ ids → is_Some (resourceCache w1 !! make_key h id)) ∧
  (∀ k l, resourceCache w !! k = Some l → resourceCache w1 !! k = Some l) ∧
  (∀ k, (∀ id, id ∈ ids → make_key h id ≠ k) →
        resourceCache w1 !! k = resourceCache w !! k) ∧
  (length (calls w) ≤ length (calls w1) ≤ length (calls w) + length ids)%nat.
Proof.
  cbv zeta. revert w. induction ids as [|id ids IH]; intros w.
  - cbn. split; [by intros id ?%elem_of_nil|]. split; [done|]. split; [done|lia].
  - cbn [foldl]. set (w0 := (preload h id w).2).
    destruct (IH w0) as (Hin & Hmono & Hout & Hlen).
    split; [|split; [|split]].
    + intros id' [->|Hid']%elem_of_cons; [|by apply Hin].
      destruct (accessData_cache_is_Some h (make_key h id) id w) as [l Hl].
      exists l. by apply Hmono.
    + intros k l Hk. apply Hmono. by apply accessData_cache_mono.
    + intros k Hk. rewrite Hout.
      * apply accessData_cache_other. intros ->. apply (Hk id); [by left | done].
      * intros id' Hid'. apply Hk. by right.
    + pose proof (accessData_calls_le h (make_key h id) id w) as Hle.
      change (accessData h (make_key h id) id w) with w0 in Hle.
      cbn [length]. lia.
Qed.

(** X9. The kick-off of [Posts] preloads the comments of the first ten
    posts and of no other: after it, at any later moment, [read] of the
    comments of any of those posts, through the resources of any
    [makeDataResource] call, changes nothing and so starts no load; at most
    ten loader calls are made; and every key that is not the comments key
    of one of the first ten posts is cached or not as before. *)
Theorem kick_off_covers_first_ten w fns fns' u u' ids :
  let res := makeDataResource fns u in
  let res' := makeDataResource fns' u' in
  let w1 := kick_off_comments res ids w in
  (∀ i id evs, ids !! i = Some id → i < 10 →
     (read (Data.comments res') id (run evs w1)).2 = run evs w1) ∧
  (length (calls w) ≤ length (calls w1) ≤ length (calls w) + 10)%nat ∧
  (∀ k, (∀ i id, ids !! i = Some id → i < 10 →
           make_key (Data.comments res) id ≠ k) →
        resourceCache w1 !! k = resourceCache w !! k).
Proof.
  intros res res' w1.
  destruct (preload_each_spec (Data.comments res) (take 10 ids) w)
    as (Hin & _ & Hout & Hlen).
  fold (kick_off_comments res ids w) in Hin, Hout, Hlen. fold w1 in Hin, Hout, Hlen.
  split; [|split].
  - intros i id evs Hi Hlt.
    destruct (Hin id) as [l Hl].
    { apply elem_of_take. eauto. }
    apply (run_cache_mono evs) in Hl.
    rewrite read_world. by eapply accessData_hit.
  - rewrite length_take in Hlen. lia.
  - intros k Hk. apply Hout. intros id (i & Hi & Hlt)%elem_of_take. by eapply Hk.
Qed.

Lemma kick_off_covers_first_ten_witness :
  let res := makeDataResource (Data.Loaders 0 1 2 3) (JNum 1) in
  let ids := [JNum 1; JNum 2; JNum 3; JNum 4; JNum 5; JNum 6; JNum 7;
              JNum 8; JNum 9; JNum 10; JNum 11] in
  let w1 := kick_off_comments res ids initial in
  (read (Data.comments res) (JNum 10) w1).2 = w1 ∧
  resourceCache w1 !! "comments:11" = None.
Proof.
  cbv zeta.
  destruct (kick_off_covers_first_ten initial (Data.Loaders 0 1 2 3)
              (Data.Loaders 0 1 2 3) (JNum 1) (JNum 1)
              [JNum 1; JNum 2; JNum 3; JNum 4; JNum 5; JNum 6; JNum 7;
               JNum 8; JNum 9; JNum 10; JNum 11])
    as (Hread & _ & Hout).
  split.
  - apply (Hread 9 (JNum 10) []); [reflexivity | lia].
  - rewrite Hout; [reflexivity|].
    intros i id Hi Hlt. do 10 (destruct i as [|i]; [injection Hi as <-; vm_compute; discriminate|]).
    lia.
Defined.

(** X10. In every world the page can be in, [loadImage] throws the promise
    of the image's entry while that entry is pending and returns
    [undefined] otherwise: it never raises an error and never hands back
    the image. A second [loadImage] for the same [src], with its own new
    loader closure, changes nothing. *)
Theorem loadImage_suspends_or_completes w fn src :
  reachable w →
  (∃ r, cache_get (make_key (preloadImage fn src) JUndefined)
                  (loadImage fn src w).2 = Some r ∧
        (loadImage fn src w).1 =
          if decide (status r = "pending") then Throw (JPromise (promise r))
          else Return JUndefined) ∧
  (∀ fn', (loadImage fn' src (loadImage fn src w).2).2 = (loadImage fn src w).2).
Proof.
  intros Hw%reachable_wf. split; [|intros fn'; apply loadImage_twice].
  destruct (read_cases (preloadImage fn src) JUndefined w Hw) as (r & Hr & Hc).
  rewrite loadImage_world, <- read_world. exists r. split; [done|].
  unfold loadImage.
  destruct (read (preloadImage fn src) JUndefined w) as [c w'] eqn:E. cbn in Hc.
  destruct Hc as [[Hs ->]|[[Hs ->]|[Hs ->]]]; rewrite Hs; done.
Qed.

Lemma loadImage_suspends_or_completes_witness :
  (∃ r, cache_get (make_key (preloadImage 3 "cat.png") JUndefined)
                  (loadImage 3 "cat.png" (run failed_load initial)).2 = Some r ∧
        (loadImage 3 "cat.png" (run failed_load initial)).1 =
          if decide (status r = "pending") then Throw (JPromise (promise r))
          else Return JUndefined) ∧
  (∀ fn', (loadImage fn' "cat.png" (loadImage 3 "cat.png" (run failed_load initial)).2).2 =
          (loadImage 3 "cat.png" (run failed_load initial)).2).
Proof.
  apply (loadImage_suspends_or_completes (run failed_load initial) 3 "cat.png").
  by exists failed_load.
Defined.

(** ** Pending entries *)

Lemma pending_value_step w ev :
  wf w →
  (∀ l r, objects w !! l = Some r → status r = "pending" → value r = JNull) →
  ∀ l r, objects (step w ev) !! l = Some r → status r = "pending" → value r = JNull.
Proof.
  intros Hw Hnull.
  assert (Hacc : ∀ h key input l r,
    objects (accessData h key input w) !! l = Some r →
    status r = "pending" → value r = JNull).
  { intros h key input l r.
    destruct (resourceCache w !! key) as [l0|] eqn:E.
    - rewrite (accessData_hit _ _ _ _ l0) by done. apply Hnull.
    - rewrite accessData_miss by done. cbn.
      intros [[_ Hr] | [_ <-]]%lookup_snoc_Some; [by apply (Hnull l) | done]. }
  destruct ev; cbn.
  - rewrite read_world. apply Hacc.
  - apply Hacc.
  - unfold settle. by destruct (promises w !! p) as [[[?|] ?]|].
  - unfold run_microtask. destruct (microtasks w) as [|[l0 o] rest]; [done|].
    cbn. intros l r. destruct (decide (l0 = l)) as [<-|Hne].
    + rewrite list_lookup_alter_eq. intros (r0 & _ & ->)%fmap_Some.
      by destruct o.
    + rewrite list_lookup_alter_ne by done. apply Hnull.
Qed.

(** X11. In every world the page can be in, an entry whose status is
    ["pending"] has the value [null]: the value is written only by the
    continuation that also takes the status out of ["pending"]. *)
Theorem pending_entry_has_no_value w k r :
  reachable w → cache_get k w = Some r → status r = "pending" →
  value r = JNull.
Proof.
  intros [evs ->] (l & _ & Hr)%cache_get_object. revert l r Hr.
  induction evs as [|ev evs IH] using rev_ind; intros l r Hr Hs.
  - cbn in Hr. by rewrite lookup_nil in Hr.
  - rewrite run_snoc in Hr.
    by apply (pending_value_step (run evs initial) ev
                (wf_run evs initial wf_initial) IH l r).
Qed.

Lemma pending_entry_has_no_value_witness :
  value (Resource 1 "pending" JNull) = JNull.
Proof.
  apply (pending_entry_has_no_value
           (run (failed_load ++ [EvRead posts1 JUndefined;
                                 EvSettle 1 (Fulfilled (JRef 3))]) initial)
           "posts:1:undefined").
  - by eexists.
  - vm_compute. reflexivity.
  - reflexivity.
Defined.

(** X12. Whenever [read] suspends in a world the page can be in, the
    entry it found still has its continuation owed on the very promise
    that was thrown: registered on it while it is pending, or in the
    microtask queue with its outcome once it is settled. So a reader that
    retries after the thrown promise has settled and the queue has run
    finds the entry no longer pending. *)
Theorem suspension_has_a_continuation w h input p :
  reachable w →
  (read h input w).1 = Throw (JPromise p) →
  let w' := (read h input w).2 in
  ∃ l pr, resourceCache w' !! make_key h input = Some l ∧
          promises w' !! p = Some pr ∧
          match p_state pr with
          | None => l ∈ p_reactions pr
          | Some o => (l, o) ∈ microtasks w'
          end.
Proof.
  intros Hr Hthrow w'.
  assert (Hr' : reachable w') by apply (reachable_run [EvRead h input] w Hr).
  destruct (read_cases h input w (reachable_wf _ Hr)) as (r & Hget & Hc).
  fold w' in Hget.
  destruct Hc as [[Hs Hc]|[[_ Hc]|[_ Hc]]]; rewrite Hc in Hthrow; [|done|done].
  injection Hthrow as <-.
  apply cache_get_object in Hget as (l & Hl & Hobj).
  destruct (linked_object _ (reachable_linked _ Hr') l r Hobj) as (pr & Hpr & Hst).
  exists l, pr. split; [done|]. split; [done|].
  destruct (p_state pr) as [o|].
  - destruct Hst as [[_ Hin]|Hset]; [done|].
    destruct o; destruct Hset as [Hs' _]; rewrite Hs in Hs'; done.
  - apply Hst.
Qed.

Lemma suspension_has_a_continuation_witness :
  let w' := (read posts1 JUndefined (run failed_load initial)).2 in
  ∃ l pr, resourceCache w' !! make_key posts1 JUndefined = Some l ∧
          promises w' !! 1 = Some pr ∧
          match p_state pr with
          | None => l ∈ p_reactions pr
          | Some o => (l, o) ∈ microtasks w'
          end.
Proof.
  apply (suspension_has_a_continuation (run failed_load initial) posts1 JUndefined 1).
  - by exists failed_load.
  - vm_compute. reflexivity.
Defined.
